(** * content-type: parsing and formatting of the HTTP Content-Type header

    A shallow embedding of [src/index.ts].  JavaScript strings are
    sequences of UTF-16 code units; the regular expressions of the module
    are kept as syntax and run by a backtracking matcher that follows the
    ECMAScript semantics (greedy quantifiers, ordered alternatives,
    numbered captures, [lastIndex] for the global flag). *)

From Stdlib Require Import ZArith Ascii String List Lia.
From stdpp Require Import base option list sorting gmap.

Local Open Scope Z_scope.

(** ** Strings *)

Module JS.

(** A string is the list of its UTF-16 code units. *)
Definition jsstring : Type := list Z.

Definition code (a : ascii) : Z := Z.of_N (N_of_ascii a).

(** An ASCII literal as a JavaScript string. *)
Fixpoint js (s : string) : jsstring :=
  match s with
  | EmptyString => []
  | String a s' => code a :: js s'
  end.

(** The double quote, U+0022, and the backslash, U+005C. *)
Definition DQUOTE : Z := 0x22.
Definition BSLASH : Z := 0x5c.

(** [s.length] *)
Definition jslength (s : jsstring) : Z := Z.of_nat (length s).

(** [s.indexOf(c)] for a one-character needle: [None] stands for -1. *)
Fixpoint indexOf (c : Z) (s : jsstring) : option nat :=
  match s with
  | [] => None
  | x :: s' => if Z.eqb x c then Some O else S <$> indexOf c s'
  end.

(** [s.substring(a, b)]: both bounds are clamped to [0, s.length] and
    swapped when the first is larger than the second. *)
Definition substring (s : jsstring) (a b : Z) : jsstring :=
  let len := jslength s in
  let a' := Z.min (Z.max a 0) len in
  let b' := Z.min (Z.max b 0) len in
  let from := Z.min a' b' in
  let to := Z.max a' b' in
  take (Z.to_nat (to - from)) (drop (Z.to_nat from) s).

(** WhiteSpace and LineTerminator code points of ECMAScript, the ones
    [trim] strips. *)
Definition is_whitespace (c : Z) : bool :=
  ((0x09 <=? c) && (c <=? 0x0d)) || (c =? 0x20) || (c =? 0xa0)
  || (c =? 0x1680) || ((0x2000 <=? c) && (c <=? 0x200a))
  || (c =? 0x2028) || (c =? 0x2029) || (c =? 0x202f) || (c =? 0x205f)
  || (c =? 0x3000) || (c =? 0xfeff).

Fixpoint trimStart (s : jsstring) : jsstring :=
  match s with
  | [] => []
  | x :: s' => if is_whitespace x then trimStart s' else s
  end.

Definition trimEnd (s : jsstring) : jsstring := rev (trimStart (rev s)).

(** [s.trim()] *)
Definition trim (s : jsstring) : jsstring := trimEnd (trimStart s).

(** [s.toLowerCase()].  The module lower-cases only strings that have
    matched the token grammar, which is pure ASCII; on those the Unicode
    case mapping is the shift of A-Z onto a-z. *)
Definition lower_unit (c : Z) : Z :=
  if (0x41 <=? c) && (c <=? 0x5a) then c + 0x20 else c.

Definition toLowerCase (s : jsstring) : jsstring := map lower_unit s.

(** The order of [Array.prototype.sort] without a comparator: strings are
    compared code unit by code unit, a proper prefix coming first. *)
Fixpoint str_leb (x y : jsstring) : bool :=
  match x, y with
  | [], _ => true
  | _ :: _, [] => false
  | a :: x', b :: y' => (a <? b) || ((a =? b) && str_leb x' y')
  end.

Definition str_le (x y : jsstring) : Prop := str_leb x y = true.

#[global] Instance str_le_dec x y : Decision (str_le x y).
Proof. unfold str_le. apply _. Defined.

(** [keys.sort()] *)
Definition sort (keys : list jsstring) : list jsstring :=
  merge_sort str_le keys.

End JS.

Export JS.

(** ** Regular expressions *)

Module RegExp.

(** The fragment of the regular expression syntax the module uses.  A
    character class is a list of inclusive code unit ranges. *)
Inductive regex : Type :=
| Class (ranges : list (Z * Z))
| Eps
| Seq (r1 r2 : regex)
| Alt (r1 r2 : regex)
| Star (r : regex)
| Group (i : nat) (r : regex)
| Bol
| Eol.

(** [r+] *)
Definition Plus (r : regex) : regex := Seq r (Star r).

(** A single character. *)
Definition Chr (c : Z) : regex := Class [(c, c)].

Definition one (a : ascii) : Z * Z := (code a, code a).
Definition rng (a b : ascii) : Z * Z := (code a, code b).

Definition in_class (ranges : list (Z * Z)) (c : Z) : bool :=
  existsb (fun r => (fst r <=? c) && (c <=? snd r)) ranges.

(** Captures: group number to captured text. *)
Abbreviation captures := (gmap nat jsstring).

(** A matcher state is the index in the subject, the rest of the subject
    from there, and the captures so far; a continuation is what remains
    to be matched. *)
Definition cont : Type := nat -> jsstring -> captures -> option (nat * captures).

(** The loop of a greedy star over the matcher [body] of its operand:
    first one more iteration, which must consume input, then the rest of
    the pattern [k] from where the loop stands.  Since every iteration
    consumes, the length [n] of the rest bounds the number of
    iterations. *)
Fixpoint star_loop (body : nat -> jsstring -> captures -> cont -> option (nat * captures))
    (k : cont) (n : nat) (pos : nat) (s : jsstring) (c : captures)
    {struct n} : option (nat * captures) :=
  match n with
  | O => k pos s c
  | S n' =>
      match body pos s c
              (fun pos' s' c' =>
                 if Nat.eqb pos' pos then None else star_loop body k n' pos' s' c')
      with
      | Some res => Some res
      | None => k pos s c
      end
  end.

(** The backtracking matcher. *)
Fixpoint rmatch (r : regex) (pos : nat) (s : jsstring) (c : captures)
    (k : cont) {struct r} : option (nat * captures) :=
  match r with
  | Class ranges =>
      match s with
      | x :: s' => if in_class ranges x then k (S pos) s' c else None
      | [] => None
      end
  | Eps => k pos s c
  | Seq r1 r2 =>
      rmatch r1 pos s c (fun pos' s' c' => rmatch r2 pos' s' c' k)
  | Alt r1 r2 =>
      match rmatch r1 pos s c k with
      | Some res => Some res
      | None => rmatch r2 pos s c k
      end
  | Star r1 => star_loop (rmatch r1) k (length s) pos s c
  | Group i r1 =>
      rmatch r1 pos s c
        (fun pos' s' c' => k pos' s' (<[i := take (pos' - pos) s]> c'))
  | Bol => if Nat.eqb pos 0 then k pos s c else None
  | Eol => match s with [] => k pos s c | _ :: _ => None end
  end.

(** A match object: [index], [match[0]] and the captures. *)
Record rmatch_result : Type := MatchResult {
  m_index : nat;
  m_text : jsstring;
  m_groups : captures
}.

(** An attempt at one index of the subject. *)
Definition match_at (r : regex) (s : jsstring) (i : nat) : option rmatch_result :=
  match rmatch r i (drop i s) ∅ (fun e _ c => Some (e, c)) with
  | Some (e, c) => Some (MatchResult i (take (e - i) (drop i s)) c)
  | None => None
  end.

(** The search of [exec]: the leftmost index from [i] on, [n] more
    indices to try after it. *)
Fixpoint search (r : regex) (s : jsstring) (i n : nat) : option rmatch_result :=
  match match_at r s i with
  | Some m => Some m
  | None => match n with O => None | S n' => search r s (S i) n' end
  end.

(** [r.exec(s)] for a regex with the global flag whose [lastIndex] is
    [lastIndex].  The new [lastIndex] is the end of the match, or 0 when
    there is none. *)
Definition exec (r : regex) (s : jsstring) (lastIndex : nat) : option rmatch_result :=
  if decide (lastIndex ≤ length s)%nat
  then search r s lastIndex (length s - lastIndex)
  else None.

Definition m_end (m : rmatch_result) : nat := (m_index m + length (m_text m))%nat.

(** [r.test(s)] for a regex without the global flag: the search starts
    at index 0. *)
Definition test (r : regex) (s : jsstring) : bool :=
  match exec r s 0 with Some _ => true | None => false end.

(** Replacement templates: literal text and [$n]. *)
Inductive titem : Type :=
| TLit (s : jsstring)
| TRef (i : nat).

Definition expand (t : list titem) (m : rmatch_result) : jsstring :=
  flat_map (fun it =>
    match it with
    | TLit s => s
    | TRef i => default [] (m_groups m !! i)
    end) t.

(** [s.replace(r, t)] for a regex with the global flag: every match
    from left to right is replaced, the text between matches is kept,
    and an empty match moves the search one character on. *)
Fixpoint replace_from (fuel : nat) (r : regex) (t : list titem)
    (s : jsstring) (i : nat) : jsstring :=
  match fuel with
  | O => drop i s
  | S fuel' =>
      match exec r s i with
      | None => drop i s
      | Some m =>
          take (m_index m - i) (drop i s) ++ expand t m ++
          (if Nat.eqb (length (m_text m)) 0
           then take 1 (drop (m_index m) s)
                ++ replace_from fuel' r t s (S (m_index m))
           else replace_from fuel' r t s (m_end m))
      end
  end.

Definition replace (r : regex) (t : list titem) (s : jsstring) : jsstring :=
  replace_from (S (length s)) r t s 0.

End RegExp.

Export RegExp.

(** ** The module [index.ts] *)

Module ContentTypeLib.

(** [[!#$%&'*+.^_`|~0-9A-Za-z-]], the tchar class of RFC 7230. *)
Definition tchar : list (Z * Z) :=
  [one "!"; one "#"; one "$"; one "%"; one "&"; one "'"; one "*";
   one "+"; one "."; one "^"; one "_"; one "`"; one "|"; one "~";
   rng "0" "9"; rng "A" "Z"; rng "a" "z"; one "-"].
Definition TCHAR : regex := Class tchar.

(** [[\u000b\u0020\u0021\u0023-\u005b\u005d-\u007e\u0080-\u00ff]] *)
Definition qdtext : list (Z * Z) :=
  [(0x0b, 0x0b); (0x20, 0x20); (0x21, 0x21); (0x23, 0x5b);
   (0x5d, 0x7e); (0x80, 0xff)].
Definition QDTEXT : regex := Class qdtext.

(** [[\u000b\u0020-\u00ff]] *)
Definition qpair_char : list (Z * Z) := [(0x0b, 0x0b); (0x20, 0xff)].
Definition QPAIR_CHAR : regex := Class qpair_char.

Definition SPACES : regex := Star (Chr 0x20).

(** The quoted alternative of a parameter value: a double quote, any
    number of qdtext characters or backslash pairs, a double quote. *)
Definition QUOTED : regex :=
  Seq (Chr DQUOTE)
    (Seq (Star (Alt QDTEXT (Seq (Chr BSLASH) QPAIR_CHAR)))
      (Chr DQUOTE)).

(** [PARAM_REGEXP]: semicolon, spaces, (token), spaces, equals sign,
    spaces, (quoted string or token), spaces; global flag. *)
Definition PARAM_REGEXP : regex :=
  Seq (Chr (code ";"))
    (Seq SPACES
      (Seq (Group 1 (Plus TCHAR))
        (Seq SPACES
          (Seq (Chr (code "="))
            (Seq SPACES
              (Seq (Group 2 (Alt QUOTED (Plus TCHAR)))
                SPACES)))))).

(** [TEXT_REGEXP = /^[\u000b\u0020-\u007e\u0080-\u00ff]+$/] *)
Definition text_char : list (Z * Z) := [(0x0b, 0x0b); (0x20, 0x7e); (0x80, 0xff)].
Definition TEXT_CHAR : regex := Class text_char.
Definition TEXT_REGEXP : regex := Seq Bol (Seq (Plus TEXT_CHAR) Eol).

(** [TOKEN_REGEXP = /^[!#$%&'*+.^_`|~0-9A-Za-z-]+$/] *)
Definition TOKEN_REGEXP : regex := Seq Bol (Seq (Plus TCHAR) Eol).

(** [QESC_REGEXP = /\\([\u000b\u0020-\u00ff])/g] *)
Definition QESC_REGEXP : regex := Seq (Chr BSLASH) (Group 1 QPAIR_CHAR).

(** [QUOTE_REGEXP = /([\\\x22])/g]: a backslash or a double quote. *)
Definition quote_char : list (Z * Z) := [(BSLASH, BSLASH); (DQUOTE, DQUOTE)].
Definition QUOTE_REGEXP : regex := Group 1 (Class quote_char).

(** [TYPE_REGEXP]: token, slash, token, anchored at both ends. *)
Definition TYPE_REGEXP : regex :=
  Seq Bol (Seq (Plus TCHAR) (Seq (Chr (code "/")) (Seq (Plus TCHAR) Eol))).

(** The messages of the [TypeError]s the module throws. *)
Inductive error : Type :=
| ArgumentStringRequired       (* argument string is required *)
| ArgumentStringNotString      (* argument string is required to be a string *)
| HeaderMissing                (* content-type header is missing from object *)
| InvalidMediaType             (* invalid media type *)
| InvalidParameterFormat       (* invalid parameter format *)
| ArgumentObjRequired          (* argument obj is required *)
| InvalidType                  (* invalid type *)
| InvalidParameterName         (* invalid parameter name *)
| InvalidParameterValue.       (* invalid parameter value *)

(** A call returns a value or throws. *)
Inductive result (A : Type) : Type :=
| Ok (a : A)
| Throw (e : error).
Arguments Ok {A} a.
Arguments Throw {A} e.

Definition bind {A B} (x : result A) (f : A -> result B) : result B :=
  match x with
  | Ok a => f a
  | Throw e => Throw e
  end.

(** [qstring(val)], on a value that is a string already. *)
Definition qstring (str : jsstring) : result jsstring :=
  if test TOKEN_REGEXP str then Ok str
  else if (0 <? jslength str) && negb (test TEXT_REGEXP str)
  then Throw InvalidParameterValue
  else Ok (DQUOTE :: replace QUOTE_REGEXP [TLit [BSLASH]; TRef 1] str ++ [DQUOTE]).

(** Values that are not objects, as far as [parse] tells them apart. *)
Inductive prim : Type :=
| PUndefined
| PNull
| PBool (b : bool)
| PNumber (n : Z)
| PString (s : jsstring).

(** What [typeof obj.headers === 'object'] and the lookup of
    [content-type] in it can see of the [headers] property. *)
Inductive headers_prop : Type :=
| HeadersNotObject
| HeadersNull
| HeadersMap (h : gmap jsstring prim).

(** An object handed to [parse], by what [getcontenttype] inspects:
    whether it is an instance of [ServerResponse] or of
    [IncomingMessage] from [node:http], its [getHeader] when that is a
    function, and its [headers]. *)
Record http_object : Type := HttpObject {
  instanceof_Response : bool;
  instanceof_Request : bool;
  getHeader : option (jsstring -> prim);
  headers : headers_prop
}.

(** An object literal, which is an instance of neither class. *)
Definition plain_object (g : option (jsstring -> prim)) (h : headers_prop)
  : http_object := HttpObject false false g h.

(** [getcontenttype(obj)]; [header] is [undefined] until assigned. *)
Definition getcontenttype (obj : http_object) : result jsstring :=
  let header :=
    match instanceof_Response obj, getHeader obj with
    | true, Some f => f (js "content-type")
    | _, _ =>
        if instanceof_Request obj then
          match headers obj with
          | HeadersNotObject => PUndefined
          | HeadersNull => PNull
          | HeadersMap h => default PUndefined (h !! js "content-type")
          end
        else PUndefined
    end in
  match header with
  | PString s => Ok s
  | _ => Throw HeaderMissing
  end.

(** [class ContentType] *)
Record ContentType : Type := MkContentType {
  type : jsstring;
  parameters : gmap jsstring jsstring
}.

(** The argument of [format]: a falsy or non-object value, or an object
    with its [type] and [parameters] properties when present. *)
Inductive format_arg : Type :=
| FNotObject
| FObject (ty : option jsstring) (params : option (gmap jsstring jsstring)).

(** [Object.keys(parameters)], in the enumeration order of the map. *)
Definition Object_keys (o : gmap jsstring jsstring) : list jsstring :=
  (map_to_list o).*1.

(** [parameters[param]] followed by [String(...)]: a missing property
    reads as [undefined]. *)
Definition get_string (o : gmap jsstring jsstring) (k : jsstring) : jsstring :=
  default (js "undefined") (o !! k).

(** The loop of [format] over the sorted names. *)
Fixpoint format_params (parameters : gmap jsstring jsstring)
    (params : list jsstring) (string : jsstring) : result jsstring :=
  match params with
  | [] => Ok string
  | param :: rest =>
      if negb (test TOKEN_REGEXP param) then Throw InvalidParameterName
      else
        bind (qstring (get_string parameters param)) (fun q =>
          format_params parameters rest
            (string ++ js "; " ++ param ++ js "=" ++ q))
  end.

(** [format(obj)] *)
Definition format (obj : format_arg) : result jsstring :=
  match obj with
  | FNotObject => Throw ArgumentObjRequired
  | FObject ty params =>
      match ty with
      | None => Throw InvalidType
      | Some type =>
          if Nat.eqb (length type) 0 || negb (test TYPE_REGEXP type)
          then Throw InvalidType
          else
            match params with
            | Some parameters =>
                format_params parameters (sort (Object_keys parameters)) type
            | None => Ok type
            end
      end
  end.

Definition of_ContentType (m : ContentType) : format_arg :=
  FObject (Some (type m)) (Some (parameters m)).

(** The argument of [parse]. *)
Inductive parse_arg : Type :=
| ArgPrim (p : prim)
| ArgObject (o : http_object).

(** [!string] *)
Definition falsy (a : parse_arg) : bool :=
  match a with
  | ArgPrim PUndefined | ArgPrim PNull => true
  | ArgPrim (PBool b) => negb b
  | ArgPrim (PNumber n) => n =? 0
  | ArgPrim (PString s) => Nat.eqb (length s) 0
  | ArgObject _ => false
  end.

(** [obj.parameters[key] = value] on the object [{}] the constructor
    makes, [value] being a string.  That object inherits from
    [Object.prototype], whose [__proto__] is an accessor: its setter
    ignores a value that is neither an object nor [null], and no own
    property is created.  Every other name becomes, or updates, an own
    property. *)
Definition set_parameter (key value : jsstring)
    (parameters : gmap jsstring jsstring) : gmap jsstring jsstring :=
  if decide (key = js "__proto__") then parameters
  else <[key := value]> parameters.

(** The value stored for a captured [match[2]]: when it starts with a
    double quote, [value.substring(1, value.length - 2)] and the
    replacement of the backslash pairs. *)
Definition stored_value (value : jsstring) : jsstring :=
  match value with
  | c :: _ =>
      if c =? DQUOTE
      then replace QESC_REGEXP [TRef 1] (substring value 1 (jslength value - 2))
      else value
  | [] => value
  end.

(** The state of the [while] loop of [parse]: [PARAM_REGEXP.lastIndex],
    [index] and the parameters stored so far.  [parse] sets [lastIndex]
    before the loop, so that nothing an earlier call left in the shared
    regular expression is seen. *)
Record loop_state : Type := LoopState {
  ls_lastIndex : nat;
  ls_index : nat;
  ls_parameters : gmap jsstring jsstring
}.

(** One turn of the loop: [None] when [exec] finds no match and the
    loop ends, otherwise the next state or the error thrown. *)
Definition loop_step (header : jsstring) (st : loop_state)
  : option (result loop_state) :=
  match exec PARAM_REGEXP header (ls_lastIndex st) with
  | None => None
  | Some m =>
      Some
        (if negb (Nat.eqb (m_index m) (ls_index st))
         then Throw InvalidParameterFormat
         else
           let index := (ls_index st + length (m_text m))%nat in
           let key := toLowerCase (default [] (m_groups m !! 1%nat)) in
           let value := stored_value (default [] (m_groups m !! 2%nat)) in
           Ok (LoopState (m_end m) index
                 (set_parameter key value (ls_parameters st))))
  end.

(** The loop, with a bound on its turns; [None] when the bound is
    reached before the loop ends. *)
Fixpoint loop (fuel : nat) (header : jsstring) (st : loop_state)
  : option (result loop_state) :=
  match fuel with
  | O => None
  | S fuel' =>
      match loop_step header st with
      | None => Some (Ok st)
      | Some (Throw e) => Some (Throw e)
      | Some (Ok st') => loop fuel' header st'
      end
  end.

(** [parse(string)] on a header that is a string.  The object is built
    once the loop has run; the source builds it before and fills its
    parameters in the loop.  Every match of [PARAM_REGEXP] consumes
    input, so the loop ends within [length header] turns and the answer
    is never [None] ([parse_total] below). *)
Definition parse_header (header : jsstring) : option (result ContentType) :=
  let index := indexOf (code ";") header in
  let type :=
    match index with
    | Some i => trim (substring header 0 (Z.of_nat i))
    | None => trim header
    end in
  if negb (test TYPE_REGEXP type) then Some (Throw InvalidMediaType)
  else
    match index with
    | None => Some (Ok (MkContentType (toLowerCase type) ∅))
    | Some i =>
        match loop (S (length header)) header (LoopState i i ∅) with
        | None => None
        | Some (Throw e) => Some (Throw e)
        | Some (Ok st) =>
            if negb (Nat.eqb (ls_index st) (length header))
            then Some (Throw InvalidParameterFormat)
            else Some (Ok (MkContentType (toLowerCase type) (ls_parameters st)))
        end
    end.

(** [parse(string)] *)
Definition parse (string : parse_arg) : option (result ContentType) :=
  if falsy string then Some (Throw ArgumentStringRequired)
  else
    match string with
    | ArgObject o =>
        match getcontenttype o with
        | Ok header => parse_header header
        | Throw e => Some (Throw e)
        end
    | ArgPrim (PString header) => parse_header header
    | ArgPrim _ => Some (Throw ArgumentStringNotString)
    end.

End ContentTypeLib.

Export ContentTypeLib.

(** A text between double quotes, and a string argument written as an
    ASCII literal. *)
Definition dq (s : jsstring) : jsstring := DQUOTE :: s ++ [DQUOTE].
Definition str (s : string) : parse_arg := ArgPrim (PString (js s)).

(** ** The grammar, stated independently of the matcher *)

Module Grammar.

(** The language of a regular expression without anchors. *)
Inductive lang : regex -> jsstring -> Prop :=
| lang_class ranges x :
    in_class ranges x = true -> lang (Class ranges) [x]
| lang_eps : lang Eps []
| lang_seq r1 r2 w1 w2 :
    lang r1 w1 -> lang r2 w2 -> lang (Seq r1 r2) (w1 ++ w2)
| lang_alt_l r1 r2 w : lang r1 w -> lang (Alt r1 r2) w
| lang_alt_r r1 r2 w : lang r2 w -> lang (Alt r1 r2) w
| lang_star_nil r : lang (Star r) []
| lang_star_cons r w1 w2 :
    lang r w1 -> lang (Star r) w2 -> lang (Star r) (w1 ++ w2)
| lang_group i r w : lang r w -> lang (Group i r) w.

(** No [^] and no [$] in the expression. *)
Fixpoint anchor_free (r : regex) : bool :=
  match r with
  | Class _ | Eps => true
  | Seq r1 r2 | Alt r1 r2 => anchor_free r1 && anchor_free r2
  | Star r1 | Group _ r1 => anchor_free r1
  | Bol | Eol => false
  end.

(** A parameter list, as [parse] wants it from the first semicolon on:
    parameters one after the other, nothing before, between or after
    them. *)
Definition parameter_list (rest : jsstring) : Prop :=
  exists segs : list jsstring,
    Forall (lang PARAM_REGEXP) segs /\ rest = concat segs.

(** Membership of a character class, as a proposition. *)
Definition is_in (ranges : list (Z * Z)) (c : Z) : Prop :=
  in_class ranges c = true.

(** token = 1*tchar *)
Definition is_token (s : jsstring) : Prop :=
  s <> [] /\ Forall (is_in tchar) s.

(** media-type = token, slash, token *)
Definition is_media_type (s : jsstring) : Prop :=
  exists t1 t2, s = t1 ++ code "/" :: t2 /\ is_token t1 /\ is_token t2.

(** The inside of a quoted string: qdtext characters and backslash
    pairs. *)
Inductive quoted_body : jsstring -> Prop :=
| qb_nil : quoted_body []
| qb_text x w : is_in qdtext x -> quoted_body w -> quoted_body (x :: w)
| qb_pair x w :
    is_in qpair_char x -> quoted_body w -> quoted_body (BSLASH :: x :: w).

(** quoted-string = DQUOTE *( qdtext / quoted-pair ) DQUOTE *)
Definition is_quoted_string (s : jsstring) : Prop :=
  exists body, s = DQUOTE :: body ++ [DQUOTE] /\ quoted_body body.

(** One parameter of a header, with the number of spaces at each of the
    four places where the pattern allows them. *)
Record parameter : Type := MkParameter {
  p_sp1 : nat;
  p_name : jsstring;
  p_sp2 : nat;
  p_sp3 : nat;
  p_value : jsstring;
  p_sp4 : nat
}.

Definition spaces (n : nat) : jsstring := repeat 0x20 n.

(** The text of a parameter in a header. *)
Definition render (p : parameter) : jsstring :=
  code ";" :: spaces (p_sp1 p) ++ p_name p ++ spaces (p_sp2 p)
    ++ code "=" :: spaces (p_sp3 p) ++ p_value p ++ spaces (p_sp4 p).

(** parameter = token, equals sign, token or quoted-string *)
Definition well_formed (p : parameter) : Prop :=
  is_token (p_name p) /\ (is_token (p_value p) \/ is_quoted_string (p_value p)).

(** What [parse] stores for a list of parameters: each name lower-cased,
    each value as [stored_value] leaves it, in the order of the header. *)
Definition store (ps : list parameter) : gmap jsstring jsstring :=
  foldl (fun acc p =>
           set_parameter (toLowerCase (p_name p)) (stored_value (p_value p)) acc)
        ∅ ps.

(** The value of the last parameter named [k], names compared after
    lower-casing. *)
Fixpoint last_value (k : jsstring) (ps : list parameter) : option jsstring :=
  match ps with
  | [] => None
  | p :: ps' =>
      match last_value k ps' with
      | Some v => Some v
      | None =>
          if decide (toLowerCase (p_name p) = k)
          then Some (stored_value (p_value p)) else None
      end
  end.

(** The quoted-pair transform on a value: a backslash before every
    backslash and double quote. *)
Definition escape (s : jsstring) : jsstring :=
  flat_map (fun c => if in_class quote_char c then [BSLASH; c] else [c]) s.

(** What [qstring] returns when it does not throw. *)
Definition emitted (v : jsstring) : jsstring :=
  if test TOKEN_REGEXP v then v else DQUOTE :: escape v ++ [DQUOTE].

(** A value [qstring] accepts. *)
Definition representable (v : jsstring) : Prop :=
  is_token v \/ v = [] \/ Forall (is_in text_char) v.

(** The segment of one parameter in the output of [format]. *)
Definition segment (parameters : gmap jsstring jsstring) (k : jsstring) : jsstring :=
  js "; " ++ k ++ js "=" ++ emitted (get_string parameters k).

(** An object built by assigning the entries one after the other. *)
Definition assign_all (entries : list (jsstring * jsstring))
  : gmap jsstring jsstring :=
  foldl (fun o e => <[e.1 := e.2]> o) ∅ entries.

(** The quoted-text set as the specification words it: horizontal tab,
    space, visible ASCII except the double quote and the backslash, and
    0x80 to 0xFF. *)
Definition spec_quoted_text_char (c : Z) : Prop :=
  c = 0x09 \/ c = 0x20
  \/ (0x21 <= c <= 0x7e /\ c <> DQUOTE /\ c <> BSLASH)
  \/ 0x80 <= c <= 0xff.

Definition spec_quoted_text (s : jsstring) : Prop :=
  s <> [] /\ Forall spec_quoted_text_char s.

(** Space, visible ASCII, or 0x80 to 0xFF. *)
Definition printable_char (c : Z) : Prop :=
  c = 0x20 \/ 0x21 <= c <= 0x7e \/ 0x80 <= c <= 0xff.

(** The first character of the rest, if any, is outside the class. *)
Definition stops (ranges : list (Z * Z)) (rest : jsstring) : Prop :=
  match rest with
  | [] => True
  | x :: _ => in_class ranges x = false
  end.

(** The operand of the star inside a quoted string. *)
Definition QBODY : regex := Alt QDTEXT (Seq (Chr BSLASH) QPAIR_CHAR).

(** The rest of the subject after a parameter: nothing, or the next
    semicolon. *)
Definition param_start (rest : jsstring) : Prop :=
  match rest with
  | [] => True
  | x :: _ => x = code ";"
  end.

(** The loop keeps [lastIndex] and [index] equal and within the header. *)
Definition loop_inv (header : jsstring) (st : loop_state) : Prop :=
  ls_lastIndex st = ls_index st /\ (ls_index st <= length header)%nat.

(** The parameter [format] writes for a name whose value is a token:
    one space after the semicolon and none elsewhere. *)
Definition bare (P : gmap jsstring jsstring) (k : jsstring) : parameter :=
  MkParameter 1 k 0 0 (get_string P k) 0.

(** The parameter [format] writes for a name: one space after the
    semicolon, none elsewhere, and the value as [qstring] emits it. *)
Definition written (P : gmap jsstring jsstring) (k : jsstring) : parameter :=
  MkParameter 1 k 0 0 (emitted (get_string P k)) 0.

(** The text of a header before its first semicolon, or all of it. *)
Definition type_part (header : jsstring) : jsstring :=
  match indexOf (code ";") header with
  | Some i => take i header
  | None => header
  end.

(** The object has a string [s] for [getcontenttype] to find: either it
    is an instance of [ServerResponse] whose [getHeader] is a function
    that returns [s] for content-type, or it is not such a response, it
    is an instance of [IncomingMessage], and its [headers] hold [s]
    under content-type. *)
Definition exposes_header (o : http_object) (s : jsstring) : Prop :=
  (instanceof_Response o = true
   /\ exists f, getHeader o = Some f /\ f (js "content-type") = PString s)
  \/ ((instanceof_Response o = false \/ getHeader o = None)
      /\ instanceof_Request o = true
      /\ exists h, headers o = HeadersMap h
                   /\ h !! js "content-type" = Some (PString s)).

(** A parameter with its name in lower case. *)
Definition lower_name (p : parameter) : parameter :=
  MkParameter (p_sp1 p) (toLowerCase (p_name p)) (p_sp2 p) (p_sp3 p)
    (p_value p) (p_sp4 p).

(** The code units some class of [PARAM_REGEXP] admits: vertical tab and
    0x20 to 0xFF. *)
Definition param_char (c : Z) : Prop := c = 0x0b \/ 0x20 <= c <= 0xff.

End Grammar.

Export Grammar.

(** * Properties *)

(** Character literals in a goal are replaced by their code units. *)
Ltac eval_codes :=
  repeat match goal with
         | |- context [code ?a] =>
             let v := eval vm_compute in (code a) in change (code a) with v
         end.

(** ** The matcher *)

Section Matcher.

Lemma rmatch_seq r1 r2 pos s c k :
  rmatch (Seq r1 r2) pos s c k
  = rmatch r1 pos s c (fun pos' s' c' => rmatch r2 pos' s' c' k).
Proof. reflexivity. Qed.

Lemma rmatch_star r pos s c k :
  rmatch (Star r) pos s c k = star_loop (rmatch r) k (length s) pos s c.
Proof. reflexivity. Qed.

Lemma rmatch_alt r1 r2 pos s c k :
  rmatch (Alt r1 r2) pos s c k
  = match rmatch r1 pos s c k with
    | Some res => Some res
    | None => rmatch r2 pos s c k
    end.
Proof. reflexivity. Qed.

Lemma rmatch_group i r pos s c k :
  rmatch (Group i r) pos s c k
  = rmatch r pos s c
      (fun pos' s' c' => k pos' s' (<[i := take (pos' - pos) s]> c')).
Proof. reflexivity. Qed.

Lemma rmatch_class_out ranges x pos s c k :
  in_class ranges x = false -> rmatch (Class ranges) pos (x :: s) c k = None.
Proof. intros H. simpl. now rewrite H. Qed.

Lemma rmatch_class_cons ranges x pos s c k :
  in_class ranges x = true ->
  rmatch (Class ranges) pos (x :: s) c k = k (S pos) s c.
Proof. intros H. simpl. now rewrite H. Qed.

(** Whatever the matcher answers comes from the continuation, called on
    a suffix of the subject after a word of the language. *)
Lemma rmatch_sound r :
  anchor_free r = true ->
  forall pos s c k res,
    rmatch r pos s c k = Some res ->
    exists w rest c',
      s = w ++ rest /\ lang r w /\ k (pos + length w)%nat rest c' = Some res.
Proof.
  induction r as [ranges| |r1 IH1 r2 IH2|r1 IH1 r2 IH2|r1 IH1|i r1 IH1| |];
    simpl; intros Haf pos s c k res Hm; try discriminate.
  - destruct s as [|x s']; [discriminate|].
    destruct (in_class ranges x) eqn:Hx; [|discriminate].
    exists [x], s', c. simpl. rewrite Nat.add_1_r.
    repeat split; auto. now constructor.
  - exists [], s, c. simpl. rewrite Nat.add_0_r. repeat split; auto. constructor.
  - apply andb_prop in Haf as [Ha1 Ha2].
    apply (IH1 Ha1) in Hm as (w1 & rest1 & c1 & -> & Hl1 & Hk1).
    apply (IH2 Ha2) in Hk1 as (w2 & rest2 & c2 & -> & Hl2 & Hk2).
    exists (w1 ++ w2), rest2, c2. rewrite length_app, Nat.add_assoc, <- app_assoc.
    repeat split; auto. now constructor.
  - apply andb_prop in Haf as [Ha1 Ha2].
    destruct (rmatch r1 pos s c k) eqn:H1.
    + inversion Hm; subst. apply (IH1 Ha1) in H1 as (w & rest & c' & -> & Hl & Hk).
      exists w, rest, c'. repeat split; auto. now apply lang_alt_l.
    + apply (IH2 Ha2) in Hm as (w & rest & c' & -> & Hl & Hk).
      exists w, rest, c'. repeat split; auto. now apply lang_alt_r.
  - revert Hm. generalize (length s) as n. intros n. revert pos s c.
    induction n as [|n IHn]; simpl; intros pos s c Hm.
    + exists [], s, c. simpl. rewrite Nat.add_0_r. repeat split; auto. constructor.
    + destruct (rmatch r1 pos s c _) eqn:H1.
      * inversion Hm; subst.
        apply (IH1 Haf) in H1 as (w1 & rest1 & c1 & -> & Hl1 & Hk1).
        destruct (Nat.eqb (pos + length w1) pos); [discriminate|].
        apply IHn in Hk1 as (w2 & rest2 & c2 & -> & Hl2 & Hk2).
        exists (w1 ++ w2), rest2, c2.
        rewrite length_app, Nat.add_assoc, <- app_assoc.
        repeat split; auto. now constructor.
      * exists [], s, c. simpl. rewrite Nat.add_0_r.
        repeat split; auto. constructor.
  - apply (IH1 Haf) in Hm as (w & rest & c' & -> & Hl & Hk).
    exists w, rest, (<[i := take (pos + length w - pos) (w ++ rest)]> c').
    repeat split; auto. now constructor.
Qed.

End Matcher.

(** ** Matches found by [exec] *)

Section Exec.

Variable r : regex.
Hypothesis r_anchor_free : anchor_free r = true.

Lemma match_at_sound s i m :
  match_at r s i = Some m ->
  m_index m = i /\ lang r (m_text m)
  /\ exists rest, drop i s = m_text m ++ rest.
Proof using r_anchor_free.
  unfold match_at. intros H.
  destruct (rmatch r i (drop i s) ∅ _) as [[e c]|] eqn:Hm; [|discriminate].
  inversion H; subst; clear H. simpl.
  apply (rmatch_sound r r_anchor_free) in Hm as (w & rest & c' & Hs & Hl & Hk).
  inversion Hk; subst; clear Hk.
  rewrite Hs. replace (i + length w - i)%nat with (length w) by lia.
  rewrite take_app_length. eauto.
Qed.

Lemma search_sound s n : forall i m,
  search r s i n = Some m ->
  (i <= m_index m)%nat /\ lang r (m_text m)
  /\ exists rest, drop (m_index m) s = m_text m ++ rest.
Proof using r_anchor_free.
  induction n as [|n IH]; simpl; intros i m H.
  - destruct (match_at r s i) eqn:Hm; [|discriminate].
    inversion H; subst. apply match_at_sound in Hm as (<- & Hl & Hr). auto.
  - destruct (match_at r s i) eqn:Hm.
    + inversion H; subst. apply match_at_sound in Hm as (<- & Hl & Hr). auto.
    + apply IH in H as (Hi & Hl & Hr). split; [lia|auto].
Qed.

Lemma exec_sound s i m :
  exec r s i = Some m ->
  (i <= m_index m)%nat /\ lang r (m_text m)
  /\ exists rest, drop (m_index m) s = m_text m ++ rest.
Proof using r_anchor_free.
  unfold exec. destruct (decide _); [|discriminate]. apply search_sound.
Qed.

End Exec.

(** ** The loop of [parse] *)

Section Loop.

Lemma PARAM_REGEXP_anchor_free : anchor_free PARAM_REGEXP = true.
Proof. reflexivity. Qed.

Lemma lang_class_inv ranges w :
  lang (Class ranges) w -> exists x, w = [x] /\ in_class ranges x = true.
Proof. inversion 1; subst; eauto. Qed.

Lemma lang_seq_inv r1 r2 w :
  lang (Seq r1 r2) w -> exists w1 w2, w = w1 ++ w2 /\ lang r1 w1 /\ lang r2 w2.
Proof. inversion 1; subst; eauto. Qed.

(** A parameter starts with its semicolon. *)
Lemma lang_PARAM_head w :
  lang PARAM_REGEXP w -> exists w', w = code ";" :: w'.
Proof.
  intros H. apply lang_seq_inv in H as (w1 & w2 & -> & H1 & _).
  apply lang_class_inv in H1 as (x & -> & Hx).
  exists w2. simpl in *. f_equal.
  unfold in_class in Hx. simpl in Hx. lia.
Qed.

Lemma loop_step_cases header st :
  loop_inv header st ->
  loop_step header st = None
  \/ loop_step header st = Some (Throw InvalidParameterFormat)
  \/ exists st' seg rest,
       loop_step header st = Some (Ok st')
       /\ loop_inv header st'
       /\ lang PARAM_REGEXP seg
       /\ drop (ls_index st) header = seg ++ rest
       /\ ls_index st' = (ls_index st + length seg)%nat.
Proof.
  intros [Hl Hi]. unfold loop_step.
  destruct (exec PARAM_REGEXP header (ls_lastIndex st)) as [m|] eqn:He; [|auto].
  right.
  apply (exec_sound _ PARAM_REGEXP_anchor_free) in He as (Hle & Hlang & rest & Hd).
  destruct (Nat.eqb (m_index m) (ls_index st)) eqn:Heq; simpl; [|auto].
  right. apply Nat.eqb_eq in Heq.
  eexists _, (m_text m), rest. split; [reflexivity|].
  unfold loop_inv, m_end. simpl. rewrite Heq in *.
  repeat split; auto.
  assert (length (drop (ls_index st) header) = length (m_text m ++ rest))
    as Hlen by now rewrite Hd.
  rewrite length_drop, length_app in Hlen. lia.
Qed.

(** With enough fuel the loop ends: either it throws the parameter
    format error, or it stops in a state reached through a run of
    parameters. *)
Lemma loop_result header : forall fuel st,
  loop_inv header st ->
  (length header - ls_index st < fuel)%nat ->
  loop fuel header st = Some (Throw InvalidParameterFormat)
  \/ exists st' segs,
       loop fuel header st = Some (Ok st')
       /\ loop_step header st' = None
       /\ loop_inv header st'
       /\ Forall (lang PARAM_REGEXP) segs
       /\ drop (ls_index st) header = concat segs ++ drop (ls_index st') header.
Proof.
  induction fuel as [|fuel IH]; intros st Hinv Hfuel; [lia|].
  simpl.
  destruct (loop_step_cases header st Hinv)
    as [Hs|[Hs|(st' & seg & rest & Hs & Hinv' & Hlang & Hd & Hidx)]];
    rewrite Hs; auto.
  - right. exists st, []. simpl. repeat split; auto; apply Hinv.
  - assert (0 < length seg)%nat as Hpos.
    { destruct (lang_PARAM_head _ Hlang) as [w' ->]. simpl. lia. }
    destruct Hinv' as [Hl' Hi'].
    destruct (IH st') as [Ht|(st'' & segs & Hl & Hend & Hinv'' & Hall & Hd')];
      [split; auto|lia|auto|].
    right. exists st'', (seg :: segs).
    repeat split; auto; try apply Hinv''.
    assert (drop (ls_index st') header = rest) as Hrest.
    { rewrite Hidx, <- drop_drop, Hd. now rewrite drop_app_length. }
    simpl. rewrite Hd, <- app_assoc. f_equal.
    now rewrite <- Hd', Hrest.
Qed.

End Loop.

(** ** [parse] on a header with parameters *)

Section ParseHeader.

Lemma indexOf_Some c s i :
  indexOf c s = Some i ->
  (i < length s)%nat /\ s !! i = Some c /\ indexOf c (take i s) = None.
Proof.
  revert i. induction s as [|x s IH]; simpl; intros i H; [discriminate|].
  destruct (Z.eqb x c) eqn:Hx.
  - inversion H; subst. apply Z.eqb_eq in Hx. subst. simpl. repeat split; auto. lia.
  - destruct (indexOf c s) as [j|] eqn:Hj; [|discriminate].
    inversion H; subst. destruct (IH j eq_refl) as (Hlt & Hl & Hn).
    simpl. rewrite Hx, Hn. repeat split; auto. lia.
Qed.

Lemma substring_0 s i :
  (i <= length s)%nat -> substring s 0 (Z.of_nat i) = take i s.
Proof.
  intros H. unfold substring, jslength. cbv zeta.
  match goal with
  | |- take (Z.to_nat ?n) (drop (Z.to_nat ?m) s) = _ =>
      replace (Z.to_nat n) with i by lia;
      replace (Z.to_nat m) with 0%nat by lia
  end.
  reflexivity.
Qed.

(** The two outcomes of [parse] on a header whose media type is valid
    and which has a semicolon. *)
Lemma parse_header_cases header i :
  indexOf (code ";") header = Some i ->
  test TYPE_REGEXP (trim (take i header)) = true ->
  parse_header header = Some (Throw InvalidParameterFormat)
  \/ exists st,
       parse_header header
       = Some (Ok (MkContentType (toLowerCase (trim (take i header)))
                     (ls_parameters st)))
       /\ parameter_list (drop i header).
Proof.
  intros Hi Ht. destruct (indexOf_Some _ _ _ Hi) as (Hlt & _ & _).
  unfold parse_header. rewrite Hi, substring_0, Ht by lia. simpl negb. cbv iota.
  destruct (loop_result header (S (length header)) (LoopState i i ∅))
    as [Hl|(st & segs & Hl & _ & [_ Hle] & Hall & Hd)];
    [split; simpl; lia|simpl; lia|rewrite Hl; auto|].
  rewrite Hl. simpl in Hd.
  destruct (Nat.eqb (ls_index st) (length header)) eqn:He; simpl; [|auto].
  right. exists st. split; [reflexivity|].
  apply Nat.eqb_eq in He. rewrite He, drop_all, app_nil_r in Hd.
  exists segs. auto.
Qed.

End ParseHeader.

(** ** Greedy matching of the pieces of the patterns *)

Section Greedy.

Lemma star_loop_class ranges k w : forall n pos rest c res,
  Forall (is_in ranges) w ->
  stops ranges rest ->
  (length (w ++ rest) <= n)%nat ->
  k (pos + length w)%nat rest c = Some res ->
  star_loop (rmatch (Class ranges)) k n pos (w ++ rest) c = Some res.
Proof.
  induction w as [|x w IH]; intros n pos rest c res Hw Hstop Hn Hk.
  - simpl in Hk |- *. rewrite Nat.add_0_r in Hk.
    destruct n as [|n]; cbn [star_loop]; [assumption|].
    destruct rest as [|y rest]; [assumption|].
    cbn [rmatch]. simpl in Hstop. now rewrite Hstop.
  - inversion Hw as [|? ? Hx Hw']; subst.
    destruct n as [|n]; [simpl in Hn; lia|].
    cbn [star_loop app]. rewrite rmatch_class_cons by exact Hx.
    replace (Nat.eqb (S pos) pos) with false
      by (symmetry; apply Nat.eqb_neq; lia).
    rewrite (IH n (S pos) rest c res); auto.
    + simpl in Hn. lia.
    + rewrite <- Hk. f_equal. simpl. lia.
Qed.

Lemma rmatch_star_class ranges k w pos rest c res :
  Forall (is_in ranges) w ->
  stops ranges rest ->
  k (pos + length w)%nat rest c = Some res ->
  rmatch (Star (Class ranges)) pos (w ++ rest) c k = Some res.
Proof. intros. simpl. apply star_loop_class; auto. Qed.

Lemma rmatch_plus_class ranges k w pos rest c res :
  w <> [] ->
  Forall (is_in ranges) w ->
  stops ranges rest ->
  k (pos + length w)%nat rest c = Some res ->
  rmatch (Plus (Class ranges)) pos (w ++ rest) c k = Some res.
Proof.
  intros Hne Hw Hstop Hk. destruct w as [|x w]; [congruence|].
  inversion Hw as [|? ? Hx Hw']; subst.
  unfold Plus. rewrite rmatch_seq. simpl app.
  rewrite rmatch_class_cons by exact Hx.
  apply rmatch_star_class; auto.
  rewrite <- Hk. f_equal. simpl. lia.
Qed.

Lemma spaces_Forall n : Forall (is_in [(0x20, 0x20)]) (spaces n).
Proof. induction n; simpl; constructor; auto. reflexivity. Qed.

Lemma spaces_length n : length (spaces n) = n.
Proof. apply repeat_length. Qed.

Lemma rmatch_SPACES k n pos rest c res :
  stops [(0x20, 0x20)] rest ->
  k (pos + n)%nat rest c = Some res ->
  rmatch SPACES pos (spaces n ++ rest) c k = Some res.
Proof.
  intros Hstop Hk. apply rmatch_star_class; auto using spaces_Forall.
  now rewrite spaces_length.
Qed.

Lemma star_loop_quoted_body k b :
  quoted_body b ->
  forall n pos rest c res,
    (length (b ++ DQUOTE :: rest) <= n)%nat ->
    k (pos + length b)%nat (DQUOTE :: rest) c = Some res ->
    star_loop (rmatch QBODY) k n pos (b ++ DQUOTE :: rest) c = Some res.
Proof.
  induction 1 as [|x w Hx Hw IH|x w Hx Hw IH]; intros n pos rest c res Hn Hk.
  - simpl in *. rewrite Nat.add_0_r in Hk.
    destruct n as [|n]; simpl; assumption.
  - destruct n as [|n]; [simpl in Hn; lia|].
    cbn [star_loop app]. unfold QBODY at 1. cbn [rmatch QDTEXT].
    unfold is_in in Hx. rewrite Hx.
    replace (Nat.eqb (S pos) pos) with false
      by (symmetry; apply Nat.eqb_neq; lia).
    rewrite (IH n (S pos) rest c res); auto.
    + simpl in Hn. lia.
    + rewrite <- Hk. f_equal. simpl. lia.
  - destruct n as [|n]; [simpl in Hn; lia|].
    cbn [star_loop app]. unfold QBODY at 1. cbn [rmatch QDTEXT Chr QPAIR_CHAR].
    unfold is_in in Hx. rewrite Hx.
    replace (in_class qdtext BSLASH) with false by reflexivity.
    replace (in_class [(BSLASH, BSLASH)] BSLASH) with true by reflexivity.
    replace (Nat.eqb (S (S pos)) pos) with false
      by (symmetry; apply Nat.eqb_neq; lia).
    rewrite (IH n (S (S pos)) rest c res); auto.
    + simpl in Hn. lia.
    + rewrite <- Hk. f_equal. simpl. lia.
Qed.

Lemma rmatch_QUOTED k v pos rest c res :
  is_quoted_string v ->
  k (pos + length v)%nat rest c = Some res ->
  rmatch QUOTED pos (v ++ rest) c k = Some res.
Proof.
  intros (b & -> & Hb) Hk.
  unfold QUOTED, Chr. rewrite rmatch_seq. cbn [app].
  rewrite rmatch_class_cons by reflexivity.
  rewrite rmatch_seq. rewrite <- app_assoc. cbn [app].
  rewrite rmatch_star.
  apply (star_loop_quoted_body _ b Hb); auto.
  rewrite rmatch_class_cons by reflexivity.
  rewrite <- Hk. f_equal. simpl. rewrite length_app. simpl. lia.
Qed.

Lemma param_start_stops_space rest : param_start rest -> stops [(0x20, 0x20)] rest.
Proof. destruct rest as [|x rest]; simpl; auto. now intros ->. Qed.

Lemma param_start_stops_tchar rest : param_start rest -> stops tchar rest.
Proof. destruct rest as [|x rest]; simpl; auto. now intros ->. Qed.

Lemma token_head_stops_space w rest : is_token w -> stops [(0x20, 0x20)] (w ++ rest).
Proof.
  intros [Hne Hw]. destruct w as [|x w]; [congruence|].
  inversion Hw as [|? ? Hx _]; subst. simpl.
  unfold is_in in Hx. unfold in_class in *. simpl in *.
  destruct (Z.eqb_spec x 0x20) as [->|Hn]; [discriminate Hx|].
  lia.
Qed.

Lemma take_add_sub {A} (pos n : nat) (w rest : list A) :
  length w = n -> take (pos + n - pos) (w ++ rest) = w.
Proof.
  intros <-. replace (pos + length w - pos)%nat with (length w) by lia.
  apply take_app_length.
Qed.

Lemma stops_spaces ranges n rest :
  in_class ranges 0x20 = false -> stops ranges rest ->
  stops ranges (spaces n ++ rest).
Proof. intros H Hs. destruct n; simpl; auto. Qed.

Lemma quoted_head_stops_space v rest :
  is_quoted_string v -> stops [(0x20, 0x20)] (v ++ rest).
Proof. intros (b & -> & _). reflexivity. Qed.

Lemma rmatch_QUOTED_token k v pos rest c :
  is_token v -> rmatch QUOTED pos (v ++ rest) c k = None.
Proof.
  intros [Hne Hv]. destruct v as [|x v]; [congruence|].
  inversion Hv as [|? ? Hx _]; subst.
  unfold QUOTED, Chr. rewrite rmatch_seq. cbn [app].
  apply rmatch_class_out.
  unfold is_in, in_class in *. simpl in *.
  destruct (Z.eqb_spec x DQUOTE) as [->|Hn]; [discriminate Hx|].
  unfold DQUOTE in *. lia.
Qed.

Lemma length_render p :
  length (render p)
  = (1 + p_sp1 p + length (p_name p) + p_sp2 p + 1 + p_sp3 p
     + length (p_value p) + p_sp4 p)%nat.
Proof.
  unfold render. cbn [length].
  rewrite !length_app. cbn [length]. rewrite !length_app, !spaces_length. lia.
Qed.

Lemma rmatch_PARAM_complete p rest pos c k res :
  well_formed p ->
  param_start rest ->
  k (pos + length (render p))%nat rest
    (<[2%nat := p_value p]> (<[1%nat := p_name p]> c)) = Some res ->
  rmatch PARAM_REGEXP pos (render p ++ rest) c k = Some res.
Proof.
  rewrite length_render.
  destruct p as [n1 name n2 n3 value n4]. unfold well_formed, render.
  cbn [p_sp1 p_name p_sp2 p_sp3 p_value p_sp4].
  intros [Hname Hvalue] Hrest Hk.
  assert (stops [(0x20, 0x20)] (value ++ spaces n4 ++ rest)) as Hvs.
  { destruct Hvalue; [now apply token_head_stops_space
                     |now apply quoted_head_stops_space]. }
  unfold PARAM_REGEXP.
  rewrite rmatch_seq. unfold Chr at 1. cbn [app].
  rewrite rmatch_class_cons by reflexivity.
  rewrite <- !app_assoc. cbn [app]. rewrite <- !app_assoc.
  rewrite rmatch_seq.
  apply rmatch_SPACES; [now apply token_head_stops_space|].
  rewrite rmatch_seq, rmatch_group.
  apply rmatch_plus_class; [apply Hname|apply Hname| |].
  { now apply stops_spaces. }
  rewrite take_add_sub by reflexivity.
  rewrite rmatch_seq.
  apply rmatch_SPACES; [reflexivity|].
  rewrite rmatch_seq. unfold Chr at 1.
  rewrite rmatch_class_cons by reflexivity.
  rewrite rmatch_seq.
  apply rmatch_SPACES; [assumption|].
  rewrite rmatch_seq, rmatch_group, rmatch_alt.
  assert (rmatch SPACES
            (S (S pos + n1 + length name + n2) + n3 + length value)
            (spaces n4 ++ rest)
            (<[2%nat := value]> (<[1%nat := name]> c)) k = Some res) as Hend.
  { apply rmatch_SPACES; [now apply param_start_stops_space|].
    rewrite <- Hk. f_equal. lia. }
  destruct Hvalue as [Htok|Hq].
  - rewrite rmatch_QUOTED_token by assumption.
    apply rmatch_plus_class; [apply Htok|apply Htok| |].
    { apply stops_spaces; [reflexivity|now apply param_start_stops_tchar]. }
    now rewrite take_add_sub by reflexivity.
  - rewrite (rmatch_QUOTED _ value _ _ _ res Hq); [reflexivity|].
    now rewrite take_add_sub by reflexivity.
Qed.

End Greedy.

(** ** Well-formed parameter lists are accepted *)

Section LoopComplete.

Lemma match_at_PARAM pre p rest :
  well_formed p ->
  param_start rest ->
  match_at PARAM_REGEXP (pre ++ render p ++ rest) (length pre)
  = Some (MatchResult (length pre) (render p)
            (<[2%nat := p_value p]> (<[1%nat := p_name p]> ∅))).
Proof.
  intros Hp Hrest. unfold match_at.
  rewrite drop_app_length.
  rewrite (rmatch_PARAM_complete p rest (length pre) ∅ _
             (length pre + length (render p), _)%nat Hp Hrest eq_refl).
  now rewrite take_add_sub by reflexivity.
Qed.

Lemma search_first r s i n m :
  match_at r s i = Some m -> search r s i n = Some m.
Proof. intros H. destruct n; simpl; now rewrite H. Qed.

Lemma exec_PARAM pre p rest :
  well_formed p ->
  param_start rest ->
  exec PARAM_REGEXP (pre ++ render p ++ rest) (length pre)
  = Some (MatchResult (length pre) (render p)
            (<[2%nat := p_value p]> (<[1%nat := p_name p]> ∅))).
Proof.
  intros Hp Hrest. unfold exec.
  destruct (decide _) as [_|Hn]; [|rewrite length_app in Hn; lia].
  apply search_first. now apply match_at_PARAM.
Qed.

Lemma loop_step_PARAM pre p rest P :
  well_formed p ->
  param_start rest ->
  loop_step (pre ++ render p ++ rest) (LoopState (length pre) (length pre) P)
  = Some (Ok (LoopState (length (pre ++ render p)) (length (pre ++ render p))
                (set_parameter (toLowerCase (p_name p))
                   (stored_value (p_value p)) P))).
Proof.
  intros Hp Hrest. unfold loop_step. cbn [ls_lastIndex ls_index ls_parameters].
  rewrite exec_PARAM by assumption.
  cbn [m_index m_text m_groups]. rewrite Nat.eqb_refl. cbn [negb].
  unfold m_end. cbn [m_index m_text].
  rewrite lookup_insert_ne by discriminate.
  rewrite !lookup_insert_eq. cbn [default]. 
  rewrite length_app. reflexivity.
Qed.

Lemma param_start_flat ps : param_start (flat_map render ps).
Proof. destruct ps; simpl; auto. Qed.

Lemma loop_step_end s P :
  loop_step s (LoopState (length s) (length s) P) = None.
Proof.
  unfold loop_step, exec. cbn [ls_lastIndex].
  destruct (decide _); [|reflexivity].
  rewrite Nat.sub_diag. cbn [search]. unfold match_at.
  rewrite drop_all. reflexivity.
Qed.

Lemma loop_PARAM ps : forall fuel pre P,
  Forall well_formed ps ->
  (length ps < fuel)%nat ->
  loop fuel (pre ++ flat_map render ps) (LoopState (length pre) (length pre) P)
  = Some (Ok (LoopState (length (pre ++ flat_map render ps))
                (length (pre ++ flat_map render ps))
                (foldl (fun acc p =>
                          set_parameter (toLowerCase (p_name p))
                            (stored_value (p_value p)) acc) P ps))).
Proof.
  induction ps as [|p ps IH]; intros fuel pre P Hall Hfuel;
    (destruct fuel as [|fuel]; [simpl in Hfuel; lia|]).
  - cbn [flat_map loop foldl]. rewrite app_nil_r. now rewrite loop_step_end.
  - inversion Hall as [|? ? Hp Hps]; subst.
    cbn [flat_map loop foldl].
    rewrite loop_step_PARAM by auto using param_start_flat.
    specialize (IH fuel (pre ++ render p)
                  (set_parameter (toLowerCase (p_name p))
                     (stored_value (p_value p)) P) Hps).
    rewrite <- app_assoc in IH. rewrite IH; [reflexivity|simpl in Hfuel; lia].
Qed.

End LoopComplete.

(** ** [parse] on well-formed headers *)

Section ParseComplete.

Lemma indexOf_app_None c s1 s2 :
  indexOf c s1 = None -> indexOf c (s1 ++ c :: s2) = Some (length s1).
Proof.
  induction s1 as [|x s1 IH]; simpl; intros H.
  - now rewrite Z.eqb_refl.
  - destruct (Z.eqb x c); [discriminate|].
    destruct (indexOf c s1); [discriminate|]. now rewrite IH.
Qed.

Lemma length_flat_render ps : (length ps <= length (flat_map render ps))%nat.
Proof.
  induction ps as [|p ps IH]; simpl; [lia|]. rewrite length_app. lia.
Qed.

Lemma parse_header_well_formed ty ps :
  indexOf (code ";") ty = None ->
  test TYPE_REGEXP (trim ty) = true ->
  Forall well_formed ps ->
  parse_header (ty ++ flat_map render ps)
  = Some (Ok (MkContentType (toLowerCase (trim ty)) (store ps))).
Proof.
  intros Hty Ht Hps. unfold parse_header.
  destruct ps as [|p ps].
  - cbn [flat_map]. rewrite app_nil_r, Hty, Ht. reflexivity.
  - assert (indexOf (code ";") (ty ++ flat_map render (p :: ps)) = Some (length ty)) as Hi.
    { cbn [flat_map]. unfold render at 1. cbn [app]. now apply indexOf_app_None. }
    rewrite Hi.
    rewrite substring_0 by (rewrite length_app; lia).
    rewrite take_app_length, Ht. cbn [negb].
    rewrite loop_PARAM; auto.
    + cbn [ls_index ls_parameters]. rewrite Nat.eqb_refl. reflexivity.
    + pose proof (length_flat_render (p :: ps)). rewrite length_app. lia.
Qed.

(** On a valid media type followed by well-formed parameters [parse]
    returns the lower-cased type and the parameters stored in order. *)
Lemma parse_well_formed ty ps :
  indexOf (code ";") ty = None ->
  test TYPE_REGEXP (trim ty) = true ->
  Forall well_formed ps ->
  parse (ArgPrim (PString (ty ++ flat_map render ps)))
  = Some (Ok (MkContentType (toLowerCase (trim ty)) (store ps))).
Proof.
  intros Hty Ht Hps. unfold parse.
  assert (ty <> []) as Hne.
  { intros ->. discriminate Ht. }
  replace (falsy _) with false.
  - now apply parse_header_well_formed.
  - destruct ty; [congruence|reflexivity].
Qed.

(** [parse] always returns or throws: the bound on the loop is never
    reached. *)
Lemma parse_header_total header : exists r, parse_header header = Some r.
Proof.
  unfold parse_header.
  destruct (negb (test TYPE_REGEXP _)); [eauto|].
  destruct (indexOf (code ";") header) as [i|] eqn:Hi; [|eauto].
  destruct (indexOf_Some _ _ _ Hi) as (Hlt & _ & _).
  destruct (loop_result header (S (length header)) (LoopState i i ∅))
    as [Hl|(st & segs & Hl & _)]; [split; simpl; lia|simpl; lia| |];
    rewrite Hl; [eauto|].
  destruct (negb _); eauto.
Qed.

Lemma parse_total a : exists r, parse a = Some r.
Proof.
  unfold parse. destruct (falsy a); [eauto|].
  destruct a as [[| | | |s]|o]; eauto using parse_header_total.
  destruct (getcontenttype o); eauto using parse_header_total.
Qed.

End ParseComplete.

(** ** The languages of the patterns *)

Section Languages.

Lemma lang_star_class ranges w :
  lang (Star (Class ranges)) w <-> Forall (is_in ranges) w.
Proof.
  split.
  - remember (Star (Class ranges)) as r eqn:Hr. intros H.
    induction H as [| | | | | |r w1 w2 H1 _ H2 IH|]; try discriminate.
    + constructor.
    + inversion Hr; subst.
      apply lang_class_inv in H1 as (x & -> & Hx).
      constructor; auto.
  - induction 1 as [|x w Hx Hw IH]; [constructor|].
    change (x :: w) with ([x] ++ w). constructor; auto. now constructor.
Qed.

Lemma lang_plus_class ranges w :
  lang (Plus (Class ranges)) w <-> w <> [] /\ Forall (is_in ranges) w.
Proof.
  unfold Plus. split.
  - intros H. apply lang_seq_inv in H as (w1 & w2 & -> & H1 & H2).
    apply lang_class_inv in H1 as (x & -> & Hx).
    apply lang_star_class in H2. split; [discriminate|]. constructor; auto.
  - intros [Hne Hw]. destruct w as [|x w]; [congruence|].
    inversion Hw; subst. change (x :: w) with ([x] ++ w).
    constructor; [now constructor|now apply lang_star_class].
Qed.

Lemma lang_TOKEN w : lang (Plus TCHAR) w <-> is_token w.
Proof. apply lang_plus_class. Qed.

Lemma Forall_spaces w : Forall (is_in [(0x20, 0x20)]) w <-> w = spaces (length w).
Proof.
  split.
  - induction 1 as [|x w Hx Hw IH]; [reflexivity|].
    unfold spaces in *. simpl. f_equal; [|exact IH].
    unfold is_in, in_class in Hx. simpl in Hx. lia.
  - intros ->. apply spaces_Forall.
Qed.

Lemma lang_SPACES w : lang SPACES w <-> exists n, w = spaces n.
Proof.
  unfold SPACES, Chr. rewrite lang_star_class, Forall_spaces. split; [eauto|].
  intros [n ->]. now rewrite spaces_length.
Qed.

Lemma lang_alt_inv r1 r2 w : lang (Alt r1 r2) w -> lang r1 w \/ lang r2 w.
Proof. inversion 1; subst; auto. Qed.

Lemma lang_group_iff i r w : lang (Group i r) w <-> lang r w.
Proof. split; [inversion 1; subst; auto|now constructor]. Qed.

Lemma lang_chr c w : lang (Chr c) w <-> w = [c].
Proof.
  unfold Chr. split.
  - intros H. apply lang_class_inv in H as (x & -> & Hx).
    unfold in_class in Hx. simpl in Hx. f_equal. lia.
  - intros ->. constructor. unfold in_class. simpl. lia.
Qed.

Lemma lang_QBODY_star b : lang (Star QBODY) b <-> quoted_body b.
Proof.
  split.
  - remember (Star QBODY) as r eqn:Hr. intros H.
    induction H as [| | | | | |r w1 w2 H1 _ H2 IH|]; try discriminate.
    + constructor.
    + inversion Hr; subst. specialize (IH eq_refl).
      apply lang_alt_inv in H1 as [H1|H1].
      * apply lang_class_inv in H1 as (x & -> & Hx). now apply qb_text.
      * apply lang_seq_inv in H1 as (u & v & -> & Hu & Hv).
        apply lang_chr in Hu as ->.
        apply lang_class_inv in Hv as (x & -> & Hx). now apply qb_pair.
  - induction 1 as [|x w Hx Hw IH|x w Hx Hw IH].
    + constructor.
    + change (x :: w) with ([x] ++ w). constructor; auto.
      apply lang_alt_l. now constructor.
    + change (BSLASH :: x :: w) with (([BSLASH] ++ [x]) ++ w). constructor; auto.
      apply lang_alt_r. constructor; [now apply lang_chr|now constructor].
Qed.

Lemma lang_QUOTED v : lang QUOTED v <-> is_quoted_string v.
Proof.
  unfold QUOTED, is_quoted_string. split.
  - intros H. apply lang_seq_inv in H as (w1 & w2 & -> & H1 & H2).
    apply lang_seq_inv in H2 as (b & w3 & -> & H2 & H3).
    apply lang_chr in H1 as ->. apply lang_chr in H3 as ->.
    exists b. split; [reflexivity|]. now apply lang_QBODY_star.
  - intros (b & -> & Hb).
    change (DQUOTE :: b ++ [DQUOTE]) with ([DQUOTE] ++ b ++ [DQUOTE]).
    constructor; [now apply lang_chr|].
    constructor; [now apply lang_QBODY_star|now apply lang_chr].
Qed.

(** The language of [PARAM_REGEXP] is the set of rendered well-formed
    parameters. *)
Lemma lang_PARAM w :
  lang PARAM_REGEXP w <-> exists p, well_formed p /\ w = render p.
Proof.
  unfold PARAM_REGEXP. split.
  - intros H.
    apply lang_seq_inv in H as (w0 & u1 & -> & H0 & H).
    apply lang_seq_inv in H as (w1 & u2 & -> & H1 & H).
    apply lang_seq_inv in H as (w2 & u3 & -> & H2 & H).
    apply lang_seq_inv in H as (w3 & u4 & -> & H3 & H).
    apply lang_seq_inv in H as (w4 & u5 & -> & H4 & H).
    apply lang_seq_inv in H as (w5 & u6 & -> & H5 & H).
    apply lang_seq_inv in H as (w6 & w7 & -> & H6 & H7).
    apply lang_chr in H0 as ->. apply lang_chr in H4 as ->.
    apply lang_SPACES in H1 as [n1 ->]. apply lang_SPACES in H3 as [n2 ->].
    apply lang_SPACES in H5 as [n3 ->]. apply lang_SPACES in H7 as [n4 ->].
    apply lang_group_iff, lang_TOKEN in H2.
    apply lang_group_iff, lang_alt_inv in H6.
    exists (MkParameter n1 w2 n2 n3 w6 n4). split.
    + split; [assumption|]. destruct H6 as [H6|H6];
        [right; now apply lang_QUOTED|left; now apply lang_TOKEN].
    + reflexivity.
  - intros ([n1 name n2 n3 value n4] & [Hn Hv] & ->). unfold render.
    cbn [p_sp1 p_name p_sp2 p_sp3 p_value p_sp4].
    change (code ";" :: spaces n1 ++ name ++ spaces n2
              ++ code "=" :: spaces n3 ++ value ++ spaces n4)
      with ([code ";"] ++ spaces n1 ++ name ++ spaces n2
              ++ [code "="] ++ spaces n3 ++ value ++ spaces n4).
    constructor; [now apply lang_chr|].
    constructor; [apply lang_SPACES; eauto|].
    constructor; [now apply lang_group_iff, lang_TOKEN|].
    constructor; [apply lang_SPACES; eauto|].
    constructor; [now apply lang_chr|].
    constructor; [apply lang_SPACES; eauto|].
    constructor; [|apply lang_SPACES; eauto].
    apply lang_group_iff. destruct Hv as [Hv|Hv];
      [apply lang_alt_r; now apply lang_TOKEN|apply lang_alt_l; now apply lang_QUOTED].
Qed.

Lemma parameter_list_render rest :
  parameter_list rest
  <-> exists ps, Forall well_formed ps /\ rest = flat_map render ps.
Proof.
  unfold parameter_list. split.
  - intros (segs & Hall & ->). induction Hall as [|seg segs Hseg _ IH].
    + exists []. split; [constructor|reflexivity].
    + destruct IH as (ps & Hps & Heq).
      apply lang_PARAM in Hseg as (p & Hp & ->).
      exists (p :: ps). split; [now constructor|]. simpl. now rewrite Heq.
  - intros (ps & Hall & ->). induction Hall as [|p ps Hp _ IH].
    + exists []. split; [constructor|reflexivity].
    + destruct IH as (segs & Hsegs & Heq).
      exists (render p :: segs). split.
      * constructor; [|assumption]. apply lang_PARAM. eauto.
      * simpl. now rewrite Heq.
Qed.

End Languages.

(** ** The anchored patterns *)

Section Tests.

Lemma search_Bol r s n : forall i,
  search (Seq Bol r) s (S i) n = None.
Proof.
  induction n as [|n IH]; intros i; simpl; unfold match_at; simpl; auto.
Qed.

(** An anchored pattern is tried at index 0 only. *)
Lemma test_Bol r s :
  test (Seq Bol r) s
  = match rmatch r 0 s ∅ (fun e _ c => Some (e, c)) with
    | Some _ => true
    | None => false
    end.
Proof.
  unfold test, exec. destruct (decide _) as [_|H]; [|lia].
  rewrite Nat.sub_0_r.
  destruct (length s) as [|n] eqn:Hn; cbn [search];
    unfold match_at at 1; rewrite rmatch_seq; cbn [rmatch Nat.eqb]; rewrite drop_0;
    destruct (rmatch r 0 s ∅ _) as [[e c]|]; auto.
  now rewrite search_Bol.
Qed.

Lemma rmatch_Eol_Some pos s c k res :
  rmatch Eol pos s c k = Some res -> s = [] /\ k pos [] c = Some res.
Proof. destruct s; simpl; [auto|discriminate]. Qed.

(** [/^[class]+$/] accepts the non-empty strings over the class. *)
Lemma test_anchored_plus ranges s :
  test (Seq Bol (Seq (Plus (Class ranges)) Eol)) s = true
  <-> s <> [] /\ Forall (is_in ranges) s.
Proof.
  rewrite test_Bol. split.
  - destruct (rmatch _ _ _ _ _) as [res|] eqn:Hm; [intros _|discriminate].
    rewrite rmatch_seq in Hm.
    apply rmatch_sound in Hm as (w & rest & c' & -> & Hl & Hk); [|reflexivity].
    apply rmatch_Eol_Some in Hk as [-> _]. rewrite app_nil_r.
    now apply lang_plus_class.
  - intros [Hne Hs].
    rewrite <- (app_nil_r s), rmatch_seq.
    now rewrite (rmatch_plus_class ranges _ s 0 [] ∅ (length s, ∅) Hne Hs I eq_refl).
Qed.

Lemma test_TOKEN s : test TOKEN_REGEXP s = true <-> is_token s.
Proof. apply test_anchored_plus. Qed.

Lemma test_TEXT s :
  test TEXT_REGEXP s = true <-> s <> [] /\ Forall (is_in text_char) s.
Proof. apply test_anchored_plus. Qed.

Lemma test_TYPE s : test TYPE_REGEXP s = true <-> is_media_type s.
Proof.
  unfold TYPE_REGEXP. rewrite test_Bol. split.
  - destruct (rmatch _ _ _ _ _) as [res|] eqn:Hm; [intros _|discriminate].
    rewrite rmatch_seq in Hm.
    apply rmatch_sound in Hm as (t1 & rest & c1 & -> & H1 & Hk); [|reflexivity].
    rewrite rmatch_seq in Hk.
    apply rmatch_sound in Hk as (w & rest2 & c2 & -> & Hw & Hk); [|reflexivity].
    rewrite rmatch_seq in Hk.
    apply rmatch_sound in Hk as (t2 & rest3 & c3 & -> & H2 & Hk); [|reflexivity].
    apply rmatch_Eol_Some in Hk as [-> _]. rewrite app_nil_r.
    apply lang_chr in Hw as ->.
    exists t1, t2. split; [reflexivity|]. split; now apply lang_TOKEN.
  - intros (t1 & t2 & -> & [Hn1 Ht1] & [Hn2 Ht2]).
    rewrite rmatch_seq.
    rewrite (rmatch_plus_class tchar _ t1 0 (code "/" :: t2) ∅
               (length t1 + 1 + length t2, ∅)%nat Hn1 Ht1); auto.
    + reflexivity.
    + rewrite rmatch_seq. unfold Chr. rewrite rmatch_class_cons by reflexivity.
      rewrite rmatch_seq. rewrite <- (app_nil_r t2).
      apply rmatch_plus_class; auto; [exact I|].
      cbn [rmatch]. rewrite length_app. cbn [length]. f_equal. f_equal. lia.
Qed.

End Tests.

(** ** The quoting transform *)

Section Quoting.

Lemma search_index_ge r s n : forall i m,
  search r s i n = Some m -> (i <= m_index m)%nat.
Proof.
  induction n as [|n IH]; intros i m; simpl; unfold match_at;
    destruct (rmatch r i (drop i s) ∅ _) as [[e c]|].
  - intros H. inversion H. simpl. lia.
  - discriminate.
  - intros H. inversion H. simpl. lia.
  - intros H. apply IH in H. lia.
Qed.

Lemma exec_skip r s i :
  (i < length s)%nat ->
  match_at r s i = None -> exec r s i = exec r s (S i).
Proof.
  intros Hi Hm. unfold exec.
  destruct (decide (i <= length s)%nat); [|lia].
  destruct (decide (S i <= length s)%nat); [|lia].
  replace (length s - i)%nat with (S (length s - S i)) by lia.
  simpl. now rewrite Hm.
Qed.

Lemma exec_index_ge r s i m : exec r s i = Some m -> (i <= m_index m)%nat.
Proof.
  unfold exec. destruct (decide _); [|discriminate]. apply search_index_ge.
Qed.

(** Where the pattern does not match at the current index, [replace]
    keeps the character and goes on. *)
Lemma replace_from_skip r t s i f x :
  s !! i = Some x ->
  match_at r s i = None ->
  replace_from (S f) r t s i = x :: replace_from (S f) r t s (S i).
Proof.
  intros Hx Hm.
  assert (i < length s)%nat as Hi by (apply lookup_lt_is_Some; eauto).
  cbn [replace_from]. rewrite (exec_skip r s i Hi Hm).
  rewrite (drop_S s x i Hx).
  destruct (exec r s (S i)) as [m|] eqn:He; [|reflexivity].
  apply exec_index_ge in He.
  replace (m_index m - i)%nat with (S (m_index m - S i)) by lia.
  reflexivity.
Qed.

Lemma exec_here r s i m :
  (i <= length s)%nat -> match_at r s i = Some m -> exec r s i = Some m.
Proof.
  intros Hi Hm. unfold exec. destruct (decide _); [|lia].
  now apply search_first.
Qed.

Lemma match_at_QUOTE_in pre x suf :
  in_class quote_char x = true ->
  match_at QUOTE_REGEXP (pre ++ x :: suf) (length pre)
  = Some (MatchResult (length pre) [x] (<[1%nat := [x]]> ∅)).
Proof.
  intros Hx. unfold match_at, QUOTE_REGEXP.
  rewrite drop_app_length, rmatch_group, rmatch_class_cons by assumption.
  replace (S (length pre) - length pre)%nat with 1%nat by lia. reflexivity.
Qed.

Lemma match_at_QUOTE_out pre x suf :
  in_class quote_char x = false ->
  match_at QUOTE_REGEXP (pre ++ x :: suf) (length pre) = None.
Proof.
  intros Hx. unfold match_at, QUOTE_REGEXP.
  now rewrite drop_app_length, rmatch_group, rmatch_class_out.
Qed.

Lemma replace_from_QUOTE suf : forall pre fuel,
  (length suf < fuel)%nat ->
  replace_from fuel QUOTE_REGEXP [TLit [BSLASH]; TRef 1] (pre ++ suf) (length pre)
  = escape suf.
Proof.
  induction suf as [|x suf IH]; intros pre fuel Hfuel;
    (destruct fuel as [|fuel]; [simpl in Hfuel; lia|]).
  - cbn [replace_from]. rewrite app_nil_r. unfold exec.
    destruct (decide _); [|lia]. rewrite Nat.sub_diag. cbn [search].
    unfold match_at. rewrite drop_all. reflexivity.
  - destruct (in_class quote_char x) eqn:Hx.
    + cbn [replace_from].
      rewrite (exec_here _ _ _ _ (Nat.lt_le_incl _ _ (lookup_lt_Some _ _ _
                 (list_lookup_middle pre suf x _ eq_refl)))
                 (match_at_QUOTE_in pre x suf Hx)).
      cbn [m_index m_text length Nat.eqb]. unfold m_end. cbn [m_index m_text length].
      rewrite Nat.sub_diag. cbn [take app]. unfold expand. cbn [flat_map m_groups].
      rewrite lookup_insert_eq. cbn [default app].
      replace (length pre + 1)%nat with (length (pre ++ [x]))
        by (rewrite length_app; reflexivity).
      replace (pre ++ x :: suf) with ((pre ++ [x]) ++ suf)
        by (now rewrite <- app_assoc).
      rewrite IH by (simpl in Hfuel; lia).
      cbn [escape flat_map]. rewrite Hx. reflexivity.
    + rewrite (replace_from_skip _ _ _ _ _ x).
      * replace (S (length pre)) with (length (pre ++ [x]))
          by (rewrite length_app; simpl; lia).
        replace (pre ++ x :: suf) with ((pre ++ [x]) ++ suf)
          by (now rewrite <- app_assoc).
        rewrite IH by (simpl in Hfuel; lia).
        cbn [escape flat_map]. rewrite Hx. reflexivity.
      * now apply list_lookup_middle.
      * now apply match_at_QUOTE_out.
Qed.

(** The replacement in [qstring] is the quoted-pair transform. *)
Lemma replace_QUOTE s :
  replace QUOTE_REGEXP [TLit [BSLASH]; TRef 1] s = escape s.
Proof. unfold replace. apply (replace_from_QUOTE s []). lia. Qed.

(** [qstring] returns the emitted form of a representable value and
    throws on any other. *)
Lemma qstring_representable v : representable v -> qstring v = Ok (emitted v).
Proof.
  unfold qstring, emitted. intros Hv.
  destruct (test TOKEN_REGEXP v) eqn:Ht; [reflexivity|].
  rewrite replace_QUOTE.
  destruct Hv as [Hv|[->|Hv]].
  - apply test_TOKEN in Hv. congruence.
  - reflexivity.
  - destruct v as [|x v]; [reflexivity|].
    assert (test TEXT_REGEXP (x :: v) = true) as ->
      by (apply test_TEXT; split; [discriminate|assumption]).
    reflexivity.
Qed.

Lemma qstring_not_representable v :
  ~ representable v -> qstring v = Throw InvalidParameterValue.
Proof.
  unfold qstring, representable. intros Hv.
  destruct (test TOKEN_REGEXP v) eqn:Ht.
  { exfalso. apply Hv. left. now apply test_TOKEN. }
  destruct v as [|x v]; [exfalso; auto|].
  destruct (test TEXT_REGEXP (x :: v)) eqn:Hx; [|reflexivity].
  exfalso. apply Hv. right. right. now apply test_TEXT.
Qed.

End Quoting.

(** ** [format] *)

Section Format.

Lemma str_leb_refl x : str_leb x x = true.
Proof.
  induction x as [|a x IH]; simpl; [reflexivity|].
  rewrite Z.eqb_refl, IH. simpl. apply orb_true_r.
Qed.

Lemma str_leb_cons a x b y :
  str_leb (a :: x) (b :: y) = true <-> a < b \/ (a = b /\ str_leb x y = true).
Proof.
  simpl. rewrite orb_true_iff, andb_true_iff, Z.ltb_lt, Z.eqb_eq. tauto.
Qed.

#[local] Instance str_le_refl : Reflexive str_le.
Proof. intros x. apply str_leb_refl. Qed.

#[local] Instance str_le_trans : Transitive str_le.
Proof.
  unfold str_le. intros x. induction x as [|a x IH]; intros y z Hxy Hyz.
  - reflexivity.
  - destruct y as [|b y]; [discriminate|]. destruct z as [|d z]; [discriminate|].
    apply str_leb_cons in Hxy, Hyz. apply str_leb_cons.
    destruct Hxy as [?|[-> Hxy]], Hyz as [?|[-> Hyz]]; eauto; left; lia.
Qed.

#[local] Instance str_le_antisym : AntiSymm (=) str_le.
Proof.
  unfold str_le. intros x. induction x as [|a x IH]; intros y Hxy Hyx.
  - destruct y; [reflexivity|discriminate].
  - destruct y as [|b y]; [discriminate|].
    apply str_leb_cons in Hxy, Hyx.
    destruct Hxy as [?|[-> Hxy]], Hyx as [?|[? Hyx]]; try lia.
    f_equal. auto.
Qed.

#[local] Instance str_le_total : Total str_le.
Proof.
  unfold str_le. intros x. induction x as [|a x IH]; intros y.
  - now left.
  - destruct y as [|b y]; [now right|].
    rewrite !str_leb_cons.
    destruct (Z.lt_trichotomy a b) as [?|[->|?]]; auto.
    destruct (IH y); auto.
Qed.

(** The sorted list of names depends on the names only, not on the
    order in which they are enumerated. *)
Lemma sort_Permutation (l1 l2 : list jsstring) :
  l1 ≡ₚ l2 -> sort l1 = sort l2.
Proof.
  intros H. unfold sort.
  apply (Sorted_unique str_le); try apply Sorted_merge_sort; try apply _.
  now rewrite !merge_sort_Permutation.
Qed.

Lemma sort_perm (l : list jsstring) : sort l ≡ₚ l.
Proof. apply merge_sort_Permutation. Qed.

Lemma sort_sorted (l : list jsstring) : StronglySorted str_le (sort l).
Proof. apply StronglySorted_merge_sort; apply _. Qed.

Lemma assign_all_list_to_map entries :
  assign_all entries = list_to_map (reverse entries).
Proof.
  unfold assign_all, list_to_map.
  generalize (∅ : gmap jsstring jsstring) as acc.
  induction entries as [|e es IH]; intros acc; [reflexivity|].
  cbn [foldl]. rewrite reverse_cons, foldr_app. cbn [foldr]. apply IH.
Qed.

Lemma Object_keys_assign_all entries :
  NoDup entries.*1 -> Object_keys (assign_all entries) ≡ₚ entries.*1.
Proof.
  intros Hnd. unfold Object_keys. rewrite assign_all_list_to_map.
  rewrite map_to_list_to_map.
  - now rewrite reverse_Permutation.
  - now rewrite fmap_reverse, reverse_Permutation.
Qed.

Lemma assign_all_lookup entries k v :
  NoDup entries.*1 ->
  (k, v) ∈ entries -> assign_all entries !! k = Some v.
Proof.
  intros Hnd Hin. rewrite assign_all_list_to_map.
  apply elem_of_list_to_map.
  - now rewrite fmap_reverse, reverse_Permutation.
  - now apply elem_of_reverse.
Qed.

Lemma assign_all_Permutation e1 e2 :
  NoDup e1.*1 -> e1 ≡ₚ e2 -> assign_all e1 = assign_all e2.
Proof.
  intros Hnd Hp. rewrite !assign_all_list_to_map.
  apply list_to_map_proper.
  - now rewrite fmap_reverse, reverse_Permutation.
  - now rewrite !reverse_Permutation.
Qed.

Lemma format_params_ok P keys : forall str,
  Forall (fun k => is_token k /\ representable (get_string P k)) keys ->
  format_params P keys str = Ok (str ++ flat_map (segment P) keys).
Proof.
  induction keys as [|k keys IH]; intros str Hall; simpl.
  - now rewrite app_nil_r.
  - inversion Hall as [|? ? [Hk Hv] Hrest]; subst.
    apply test_TOKEN in Hk. rewrite Hk. cbn [negb].
    rewrite (qstring_representable _ Hv). cbn [bind].
    rewrite (IH _ Hrest). f_equal. rewrite <- app_assoc. reflexivity.
Qed.

Lemma segment_lookup (P : gmap jsstring jsstring) (k v : jsstring) :
  P !! k = Some v -> segment P k = js "; " ++ k ++ js "=" ++ emitted v.
Proof. intros H. unfold segment, get_string. now rewrite H. Qed.

Lemma is_media_type_nonempty ty : is_media_type ty -> length ty <> 0%nat.
Proof.
  intros (t1 & t2 & -> & _ & _). rewrite length_app. simpl. lia.
Qed.

(** [format] on a valid type and valid parameters: the type, then the
    segments of the parameters in the order of the sorted names. *)
Lemma format_ok ty P :
  is_media_type ty ->
  (forall k v, P !! k = Some v -> is_token k /\ representable v) ->
  format (FObject (Some ty) (Some P))
  = Ok (ty ++ flat_map (segment P) (sort (Object_keys P))).
Proof.
  intros Hty HP. unfold format.
  pose proof (is_media_type_nonempty ty Hty) as Hlen.
  apply Nat.eqb_neq in Hlen. rewrite Hlen.
  apply test_TYPE in Hty. rewrite Hty. cbn [negb orb].
  apply format_params_ok. apply Forall_forall. intros k Hk.
  rewrite sort_perm in Hk. unfold Object_keys in Hk.
  apply list_elem_of_fmap in Hk as ([k' v] & -> & Hkv).
  apply elem_of_map_to_list in Hkv. simpl.
  unfold get_string. rewrite Hkv. simpl. eauto.
Qed.

End Format.

(** ** Stored parameters and rejected headers *)

Section Stored.

Lemma set_parameter_lookup n v acc k :
  k <> js "__proto__" ->
  set_parameter n v acc !! k = if decide (n = k) then Some v else acc !! k.
Proof.
  intros Hk. unfold set_parameter.
  destruct (decide (n = js "__proto__")) as [->|Hn].
  - destruct (decide (js "__proto__" = k)); [congruence|reflexivity].
  - apply lookup_insert.
Qed.

Lemma foldl_store_lookup ps k : forall acc,
  k <> js "__proto__" ->
  foldl (fun acc p =>
           set_parameter (toLowerCase (p_name p)) (stored_value (p_value p)) acc)
        acc ps !! k
  = match last_value k ps with
    | Some v => Some v
    | None => acc !! k
    end.
Proof.
  induction ps as [|p ps IH]; intros acc Hk; [reflexivity|].
  cbn [foldl last_value]. rewrite IH by assumption.
  destruct (last_value k ps); [reflexivity|].
  rewrite set_parameter_lookup by assumption.
  destruct (decide _); reflexivity.
Qed.

(** Among the stored parameters a name is bound to the value of its
    last occurrence, unless it is [__proto__]. *)
Lemma store_lookup ps k :
  k <> js "__proto__" -> store ps !! k = last_value k ps.
Proof.
  intros Hk. unfold store. rewrite foldl_store_lookup by assumption.
  destruct (last_value k ps); [reflexivity|apply lookup_empty].
Qed.

(** The name [__proto__] is never stored. *)
Lemma store_proto ps : store ps !! js "__proto__" = None.
Proof.
  unfold store. generalize (lookup_empty (A := jsstring) (js "__proto__")).
  generalize (∅ : gmap jsstring jsstring) as acc.
  induction ps as [|p ps IH]; intros acc Hacc; [exact Hacc|].
  cbn [foldl]. apply IH. unfold set_parameter.
  destruct (decide _) as [|Hn]; [assumption|].
  now rewrite lookup_insert_ne.
Qed.

(** Last write wins, for every name but [__proto__]: on a valid media
    type followed by well-formed parameters [parse] succeeds, and a name
    is bound to what the last parameter so named holds. *)
Lemma parse_last_write_wins ty ps k :
  indexOf (code ";") ty = None ->
  is_media_type (trim ty) ->
  Forall well_formed ps ->
  k <> js "__proto__" ->
  exists m,
    parse (ArgPrim (PString (ty ++ flat_map render ps))) = Some (Ok m)
    /\ type m = toLowerCase (trim ty)
    /\ parameters m !! k = last_value k ps.
Proof.
  intros Hty Ht Hps Hk. apply test_TYPE in Ht.
  eexists. split; [now apply parse_well_formed|].
  split; [reflexivity|]. now apply store_lookup.
Qed.

End Stored.

Section Rejection.

(** A parameter list is accepted after any valid media type. *)
Lemma parameter_list_accepted header i :
  indexOf (code ";") header = Some i ->
  is_media_type (trim (take i header)) ->
  parameter_list (drop i header) ->
  exists m, parse (ArgPrim (PString header)) = Some (Ok m).
Proof.
  intros Hi Ht Hl. apply parameter_list_render in Hl as (ps & Hps & Hd).
  destruct (indexOf_Some _ _ _ Hi) as (_ & _ & Hn).
  assert (header = take i header ++ flat_map render ps) as Heq
    by (rewrite <- Hd; symmetry; apply take_drop).
  rewrite Heq. apply test_TYPE in Ht. eexists. now apply parse_well_formed.
Qed.

(** What [parse] throws settles whether the rest is a parameter list. *)
Lemma not_parameter_list header i :
  indexOf (code ";") header = Some i ->
  is_media_type (trim (take i header)) ->
  parse (ArgPrim (PString header)) = Some (Throw InvalidParameterFormat) ->
  ~ parameter_list (drop i header).
Proof.
  intros Hi Ht Hp Hl.
  destruct (parameter_list_accepted header i Hi Ht Hl) as [m Hm]. congruence.
Qed.

End Rejection.

(** ** Unquoting and the round trip *)

Section Unquoting.

(** What [parse] stores for a quoted value: the characters between the
    quotes but the last, with the backslash pairs replaced. *)
Lemma stored_value_quoted body c :
  stored_value (DQUOTE :: body ++ [c; DQUOTE])
  = replace QESC_REGEXP [TRef 1] body.
Proof.
  unfold stored_value. rewrite Z.eqb_refl. f_equal.
  unfold substring, jslength. cbn [length]. rewrite length_app. cbn [length].
  cbv zeta.
  match goal with
  | |- take (Z.to_nat ?n) (drop (Z.to_nat ?m) _) = _ =>
      replace (Z.to_nat n) with (length body) by lia;
      replace (Z.to_nat m) with 1%nat by lia
  end.
  cbn [drop]. apply take_app_length.
Qed.

(** For the empty quoted string the bounds of [substring] are swapped
    and a double quote is stored. *)
Lemma stored_value_empty_quoted : stored_value [DQUOTE; DQUOTE] = [DQUOTE].
Proof. reflexivity. Qed.

Lemma tchar_bounds c : is_in tchar c -> 0x21 <= c <= 0x7e /\ c <> DQUOTE /\ c <> code ";".
Proof.
  unfold is_in, in_class, tchar, one, rng, DQUOTE. cbn [existsb fst snd].
  eval_codes. lia.
Qed.

(** A token is stored as it is. *)
Lemma stored_value_token v : is_token v -> stored_value v = v.
Proof.
  intros [Hne Hv]. destruct v as [|x v]; [congruence|].
  inversion Hv as [|? ? Hx _]; subst. apply tchar_bounds in Hx.
  unfold stored_value. destruct (Z.eqb_spec x DQUOTE); [lia|reflexivity].
Qed.

End Unquoting.

Section RoundTrip.

Lemma indexOf_None c s : Forall (fun x => x <> c) s -> indexOf c s = None.
Proof.
  induction 1 as [|x s Hx _ IH]; simpl; [reflexivity|].
  destruct (Z.eqb_spec x c); [contradiction|]. now rewrite IH.
Qed.

Lemma token_no_semicolon t : is_token t -> Forall (fun x => x <> code ";") t.
Proof.
  intros [_ Ht]. eapply Forall_impl; [exact Ht|].
  intros c Hc. now apply tchar_bounds in Hc.
Qed.

Lemma media_type_no_semicolon ty :
  is_media_type ty -> indexOf (code ";") ty = None.
Proof.
  intros (t1 & t2 & -> & H1 & H2). apply indexOf_None.
  apply Forall_app. split; [now apply token_no_semicolon|].
  constructor; [discriminate|now apply token_no_semicolon].
Qed.

Lemma tchar_not_whitespace c : is_in tchar c -> is_whitespace c = false.
Proof.
  intros H. apply tchar_bounds in H. unfold is_whitespace. lia.
Qed.

Lemma trimStart_head x s : is_whitespace x = false -> trimStart (x :: s) = x :: s.
Proof. intros H. simpl. now rewrite H. Qed.

Lemma token_last t : is_token t -> exists t' y, t = t' ++ [y] /\ is_in tchar y.
Proof.
  intros [Hne Ht]. destruct (exists_last Hne) as (t' & y & ->).
  exists t', y. split; [reflexivity|].
  apply Forall_app in Ht as [_ Hy]. now inversion Hy.
Qed.

(** A media type has no white space to trim. *)
Lemma trim_media_type ty : is_media_type ty -> trim ty = ty.
Proof.
  intros (t1 & t2 & -> & H1 & H2).
  destruct (token_last t2 H2) as (t2' & y & -> & Hy).
  destruct H1 as [Hne1 Ht1]. destruct t1 as [|x t1]; [congruence|].
  inversion Ht1 as [|? ? Hx _]; subst.
  unfold trim. cbn [app].
  rewrite trimStart_head by now apply tchar_not_whitespace.
  unfold trimEnd.
  replace (x :: t1 ++ code "/" :: t2' ++ [y])
    with ((x :: t1 ++ code "/" :: t2') ++ [y])
    by (cbn [app]; now rewrite <- app_assoc).
  rewrite rev_unit, trimStart_head by now apply tchar_not_whitespace.
  change (rev (y :: rev (x :: t1 ++ code "/" :: t2')))
    with (rev (rev (x :: t1 ++ code "/" :: t2')) ++ [y]).
  now rewrite rev_involutive.
Qed.

Lemma segment_token (P : gmap jsstring jsstring) (k v : jsstring) :
  P !! k = Some v -> is_token v -> segment P k = render (bare P k).
Proof.
  intros Hk Hv. rewrite (segment_lookup P k v Hk).
  unfold render, bare, get_string, emitted. rewrite Hk.
  change (default (js "undefined") (Some v)) with v.
  cbn [p_sp1 p_name p_sp2 p_sp3 p_value p_sp4].
  apply test_TOKEN in Hv. rewrite Hv. unfold spaces. cbn [repeat app].
  now rewrite app_nil_r.
Qed.

Lemma flat_map_segment_token (P : gmap jsstring jsstring) keys :
  Forall (fun k => exists v, P !! k = Some v /\ is_token v) keys ->
  flat_map (segment P) keys = flat_map render (map (bare P) keys).
Proof.
  induction 1 as [|k keys (v & Hk & Hv) _ IH]; [reflexivity|].
  cbn [flat_map map]. now rewrite IH, (segment_token P k v Hk Hv).
Qed.

Lemma last_value_bare (P : gmap jsstring jsstring) k keys :
  Forall (fun k' => toLowerCase k' = k') keys ->
  last_value k (map (bare P) keys)
  = if decide (k ∈ keys) then Some (stored_value (get_string P k)) else None.
Proof.
  induction 1 as [|k' keys Hk' _ IH]; [reflexivity|].
  cbn [map last_value]. rewrite IH. cbn [bare p_name p_value]. rewrite Hk'.
  destruct (decide (k ∈ keys)) as [Hin|Hnin].
  - rewrite decide_True by (now right). reflexivity.
  - destruct (decide (k' = k)) as [->|Hne].
    + rewrite decide_True by (now left). reflexivity.
    + rewrite decide_False; [reflexivity|].
      intros Hin. apply elem_of_cons in Hin as [->|Hin]; auto.
Qed.

(** The round trip holds as long as no value has to be quoted and no
    parameter is named [__proto__]. *)
Lemma roundtrip_token_values (m : ContentType) :
  is_media_type (type m) ->
  toLowerCase (type m) = type m ->
  (forall k v, parameters m !! k = Some v ->
     is_token k /\ toLowerCase k = k /\ k <> js "__proto__" /\ is_token v) ->
  exists header,
    format (of_ContentType m) = Ok header
    /\ parse (ArgPrim (PString header)) = Some (Ok m).
Proof.
  destruct m as [ty P]. cbn [type parameters]. intros Hty Hlow HP.
  set (keys := sort (Object_keys P)).
  assert (forall k, k ∈ keys <-> is_Some (P !! k)) as Hkeys.
  { intros k. unfold keys. rewrite sort_perm. unfold Object_keys.
    rewrite list_elem_of_fmap. split.
    - intros ([k' v] & -> & Hkv). apply elem_of_map_to_list in Hkv. eauto.
    - intros [v Hv]. exists (k, v). split; [reflexivity|].
      now apply elem_of_map_to_list. }
  exists (ty ++ flat_map render (map (bare P) keys)). split.
  - unfold of_ContentType. cbn [type parameters].
    rewrite (format_ok ty P Hty).
    + fold keys. f_equal. f_equal. apply flat_map_segment_token.
      apply Forall_forall. intros k Hk. apply Hkeys in Hk as [v Hv].
      exists v. split; [assumption|]. now apply (HP k v).
    + intros k v Hkv. destruct (HP k v Hkv) as (Hk & _ & _ & Hv).
      split; [assumption|now left].
  - rewrite parse_well_formed.
    + rewrite (trim_media_type ty Hty), Hlow. do 3 f_equal.
      apply map_eq. intros k.
      destruct (decide (k = js "__proto__")) as [->|Hk].
      * rewrite store_proto. symmetry.
        destruct (P !! js "__proto__") as [v|] eqn:Hv; [|reflexivity].
        destruct (HP _ _ Hv) as (_ & _ & Hn & _). congruence.
      * rewrite (store_lookup _ k Hk), last_value_bare.
        -- destruct (decide (k ∈ keys)) as [Hin|Hnin].
           ++ apply Hkeys in Hin as [v Hv]. unfold get_string. rewrite Hv.
              change (default (js "undefined") (Some v)) with v.
              f_equal. apply stored_value_token.
              now apply (HP k v).
           ++ symmetry. apply eq_None_not_Some. now rewrite <- Hkeys.
        -- apply Forall_forall. intros k' Hk'. apply Hkeys in Hk' as [v Hv].
           now apply (HP k' v).
    + now apply media_type_no_semicolon.
    + apply test_TYPE. now rewrite trim_media_type.
    + apply Forall_forall. intros p Hp.
      apply list_elem_of_fmap in Hp as (k & -> & Hk).
      apply Hkeys in Hk as [v Hv]. destruct (HP k v Hv) as (Hk & _ & _ & Hvt).
      split; cbn [bare p_name p_value]; [assumption|].
      left. unfold get_string. rewrite Hv. exact Hvt.
Qed.

End RoundTrip.

(** ** The cases of the test suite *)

Section TestSuite.

(** The cases of [test/parse.test.ts] that the code passes. *)
Example parse_basic_type :
  parse (str "text/html") = Some (Ok (MkContentType (js "text/html") ∅)).
Proof. vm_compute. reflexivity. Qed.

Example parse_surrounding_OWS :
  parse (str " text/html ") = Some (Ok (MkContentType (js "text/html") ∅)).
Proof. vm_compute. reflexivity. Qed.

Example parse_lower_cases_type :
  parse (str "IMAGE/SVG+XML")
  = Some (Ok (MkContentType (js "image/svg+xml") ∅)).
Proof. vm_compute. reflexivity. Qed.

Example parse_two_parameters :
  parse (str "text/html; charset=utf-8; foo=bar")
  = Some (Ok (MkContentType (js "text/html")
                (<[js "foo" := js "bar"]> {[ js "charset" := js "utf-8" ]}))).
Proof. vm_compute. reflexivity. Qed.

Example parse_extra_LWS :
  parse (str "text/html ; charset=utf-8 ; foo=bar")
  = Some (Ok (MkContentType (js "text/html")
                (<[js "foo" := js "bar"]> {[ js "charset" := js "utf-8" ]}))).
Proof. vm_compute. reflexivity. Qed.

Example parse_lower_cases_names :
  parse (str "text/html; Charset=UTF-8")
  = Some (Ok (MkContentType (js "text/html") {[ js "charset" := js "UTF-8" ]})).
Proof. vm_compute. reflexivity. Qed.

Example parse_unquoted_url_value :
  parse (str "text/plain; profile=http://localhost")
  = Some (Throw InvalidParameterFormat)
  /\ parse (str "text/plain; profile=http://localhost; foo=bar")
     = Some (Throw InvalidParameterFormat).
Proof. split; vm_compute; reflexivity. Qed.

Example parse_number : parse (ArgPrim (PNumber 7)) = Some (Throw ArgumentStringNotString).
Proof. reflexivity. Qed.

(** The case with escapes, which the code fails like the plain quoted
    one: the value is UT, backslash, F-, two backslashes, backslash,
    quote, 8, backslash, quote between quotes; the expected result ends
    with a quote where the code leaves the backslash that stood before
    it, its partner cut off. *)
Example parse_quoted_with_escapes :
  parse (ArgPrim (PString
           (js "text/html; charset = "
            ++ dq (js "UT" ++ [BSLASH] ++ js "F-" ++ [BSLASH; BSLASH; BSLASH; DQUOTE]
                   ++ js "8" ++ [BSLASH; DQUOTE]))))
  = Some (Ok (MkContentType (js "text/html")
                {[ js "charset" := js "UTF-" ++ [BSLASH; DQUOTE] ++ js "8" ++ [BSLASH] ]})).
Proof. vm_compute. reflexivity. Qed.

(** The case of the balanced quotes: the semicolon inside the quoted
    value does not end the parameter, and the value again loses its last
    character, the r of bar. *)
Example parse_balanced_quotes :
  parse (ArgPrim (PString
           (js "text/html; param="
            ++ dq (js "charset=" ++ [BSLASH; DQUOTE] ++ js "utf-8"
                   ++ [BSLASH; DQUOTE] ++ js "; foo=bar")
            ++ js "; bar=foo")))
  = Some (Ok (MkContentType (js "text/html")
                (<[js "bar" := js "foo"]>
                   {[ js "param" := js "charset=" ++ [DQUOTE] ++ js "utf-8"
                                    ++ [DQUOTE] ++ js "; foo=ba" ]}))).
Proof. vm_compute. reflexivity. Qed.

End TestSuite.

(** * The claims *)

Section Claims.

(** C1 (the code departs from it).  The claim: [parse] of
    text/html; charset=<quoted UTF-8> succeeds with charset equal to
    UTF-8, the surrounding quotes stripped and nothing else.  The code
    calls [substring(1, length - 2)], whose second argument is an end
    index and not a length, and so also drops the last character inside
    the quotes: the stored charset is UTF- . *)
Theorem parse_quoted_charset_loses_last_char :
  parse (ArgPrim (PString (js "text/html; charset=" ++ dq (js "UTF-8"))))
  = Some (Ok (MkContentType (js "text/html") {[ js "charset" := js "UTF-" ]})).
Proof. vm_compute. reflexivity. Qed.

(** C2 (the code departs from it).  The claim: [parse (format m)] gives
    [m] back.  For the type text/html with charset bound to the value
    a b (which has a space and so is emitted quoted), [format] returns
    text/html; charset=<quoted a b> and [parse] of that stores the value
    without its last character. *)
Theorem roundtrip_quoted_value_loses_last_char :
  let m := MkContentType (js "text/html") {[ js "charset" := js "a b" ]} in
  format (of_ContentType m)
  = Ok (js "text/html; charset=" ++ dq (js "a b"))
  /\ parse (ArgPrim (PString (js "text/html; charset=" ++ dq (js "a b"))))
     = Some (Ok (MkContentType (js "text/html") {[ js "charset" := js "a " ]}))
  /\ MkContentType (js "text/html") {[ js "charset" := js "a " ]} <> m.
Proof.
  cbv zeta. split; [vm_compute; reflexivity|].
  split; [vm_compute; reflexivity|].
  intros H. apply (f_equal (fun x => parameters x !! js "charset")) in H.
  vm_compute in H. discriminate H.
Qed.

(** C3, as stated: a parameter bound to the empty string makes [format]
    fail with the invalid parameter value error.  It does not: for the
    type text/html and the parameter a bound to the empty string,
    [format] returns text/html; a= followed by two double quotes. *)
Lemma format_empty_value_counterexample :
  format (FObject (Some (js "text/html")) (Some {[ js "a" := [] ]}))
  = Ok (js "text/html; a=" ++ [DQUOTE; DQUOTE])
  /\ format (FObject (Some (js "text/html")) (Some {[ js "a" := [] ]}))
     <> Throw InvalidParameterValue.
Proof. split; [vm_compute; reflexivity|vm_compute; discriminate]. Qed.

(** C3, amended.  For every object with a valid type and a parameters
    mapping whose names are all valid tokens and whose values [qstring]
    accepts, in which some name is bound to the empty string, [format]
    succeeds and emits that parameter as name= followed by an empty
    quoted string: the length guard of [qstring] lets the empty value
    through, and it is wrapped in double quotes. *)
Theorem format_empty_value (ty : jsstring) (P : gmap jsstring jsstring) (k : jsstring) :
  is_media_type ty ->
  (forall k' v, P !! k' = Some v -> is_token k' /\ representable v) ->
  P !! k = Some [] ->
  qstring [] = Ok [DQUOTE; DQUOTE]
  /\ exists pre post,
       format (FObject (Some ty) (Some P))
       = Ok (pre ++ js "; " ++ k ++ js "=" ++ [DQUOTE; DQUOTE] ++ post).
Proof.
  intros Hty HP Hk. split; [reflexivity|].
  rewrite (format_ok ty P Hty HP).
  assert (k ∈ sort (Object_keys P)) as Hin.
  { rewrite sort_perm. unfold Object_keys.
    apply list_elem_of_fmap. exists (k, []). split; [reflexivity|].
    now apply elem_of_map_to_list. }
  apply list_elem_of_split in Hin as (l1 & l2 & ->).
  exists (ty ++ flat_map (segment P) l1), (flat_map (segment P) l2).
  rewrite flat_map_app. cbn [flat_map].
  rewrite (segment_lookup P k [] Hk).
  replace (emitted []) with [DQUOTE; DQUOTE] by reflexivity.
  now rewrite <- !app_assoc.
Qed.

Lemma format_empty_value_witness :
  qstring [] = Ok [DQUOTE; DQUOTE]
  /\ exists pre post,
       format (FObject (Some (js "text/html")) (Some {[ js "a" := [] ]}))
       = Ok (pre ++ js "; " ++ js "a" ++ js "=" ++ [DQUOTE; DQUOTE] ++ post).
Proof.
  apply (format_empty_value (js "text/html") {[ js "a" := [] ]} (js "a")).
  - apply test_TYPE. reflexivity.
  - intros k' v H. apply lookup_singleton_Some in H as [<- <-].
    split; [apply test_TOKEN; reflexivity|right; left; reflexivity].
  - apply lookup_singleton_eq.
Defined.

(** C4, as stated: the quoted-text test accepts exactly the non-empty
    strings over horizontal tab, space, visible ASCII other than the
    double quote and the backslash, and 0x80 to 0xFF.  It does not: the
    string made of one double quote is accepted by [TEXT_REGEXP], the
    class of which spans 0x20 to 0x7E without a gap. *)
Lemma TEXT_REGEXP_counterexample :
  test TEXT_REGEXP [DQUOTE] = true /\ ~ spec_quoted_text [DQUOTE].
Proof.
  split; [reflexivity|]. intros [_ H]. inversion H as [|? ? Hc _]; subst.
  unfold spec_quoted_text_char, DQUOTE in Hc. lia.
Qed.

(** C4, amended.  For every string without horizontal tab (0x09) and
    without vertical tab (0x0B), the quoted-text test accepts the string
    if and only if it is non-empty and each of its characters is a
    space, a visible ASCII character (0x21 to 0x7E, the double quote and
    the backslash included) or a code unit in 0x80 to 0xFF;
    consequently [qstring] quotes, rather than rejects, every such
    string that is not a token: it returns the string between double
    quotes, with a backslash before each double quote and backslash. *)
Theorem TEXT_REGEXP_printable (s : jsstring) :
  Forall (fun c => c <> 0x09 /\ c <> 0x0b) s ->
  (test TEXT_REGEXP s = true <-> s <> [] /\ Forall printable_char s)
  /\ (s <> [] -> Forall printable_char s -> ~ is_token s ->
      qstring s = Ok (DQUOTE :: escape s ++ [DQUOTE])).
Proof.
  intros Hs.
  assert (Forall (is_in text_char) s <-> Forall printable_char s) as Hiff.
  { rewrite !Forall_forall. split; intros H c Hc.
    - specialize (H c Hc). rewrite Forall_forall in Hs. specialize (Hs c Hc).
      unfold is_in, in_class, text_char in H. simpl in H.
      unfold printable_char. lia.
    - specialize (H c Hc).
      unfold is_in, in_class, text_char. simpl.
      unfold printable_char in H. lia. }
  split.
  - rewrite test_TEXT. now rewrite Hiff.
  - intros Hne Hp Htok.
    assert (representable s) as Hr by (right; right; now apply Hiff).
    rewrite (qstring_representable s Hr). unfold emitted.
    destruct (test TOKEN_REGEXP s) eqn:Ht; [|reflexivity].
    apply test_TOKEN in Ht. contradiction.
Qed.

Lemma TEXT_REGEXP_printable_witness :
  test TEXT_REGEXP (js "a b") = true
  /\ qstring (js "a b") = Ok (dq (js "a b")).
Proof.
  assert (Forall printable_char (js "a b")) as Hp.
  { unfold printable_char. repeat (constructor; [eval_codes; lia|]). constructor. }
  destruct (TEXT_REGEXP_printable (js "a b")) as [Hiff Hq].
  { repeat (constructor; [eval_codes; lia|]). constructor. }
  split.
  - apply Hiff. split; [discriminate|exact Hp].
  - rewrite Hq; [reflexivity|discriminate|exact Hp|].
    intros Ht. apply test_TOKEN in Ht. discriminate Ht.
Defined.

(** The other half of the divergence behind C4: a value with a
    horizontal tab is rejected, since the class of [TEXT_REGEXP] holds
    0x0B where the grammar quoted above it has HTAB. *)
Lemma format_rejects_htab_value :
  test TEXT_REGEXP (js "a" ++ [0x09] ++ js "b") = false
  /\ format (FObject (Some (js "text/html"))
               (Some {[ js "a" := js "a" ++ [0x09] ++ js "b" ]}))
     = Throw InvalidParameterValue.
Proof. split; vm_compute; reflexivity. Qed.

(** C5.  Each string of the rejection set makes [parse] throw the
    invalid media type error: a single space, null, undefined, a lone
    slash, text / plain, text/;plain, text/ followed by plain between
    double quotes, text/p£ain, text/(plain), text/@plain and
    text/plain,wrong. *)
Theorem parse_rejection_set :
  parse (str " ") = Some (Throw InvalidMediaType)
  /\ parse (str "null") = Some (Throw InvalidMediaType)
  /\ parse (str "undefined") = Some (Throw InvalidMediaType)
  /\ parse (str "/") = Some (Throw InvalidMediaType)
  /\ parse (str "text / plain") = Some (Throw InvalidMediaType)
  /\ parse (str "text/;plain") = Some (Throw InvalidMediaType)
  /\ parse (ArgPrim (PString (js "text/" ++ dq (js "plain"))))
     = Some (Throw InvalidMediaType)
  /\ parse (ArgPrim (PString (js "text/p" ++ [0xa3] ++ js "ain")))
     = Some (Throw InvalidMediaType)
  /\ parse (str "text/(plain)") = Some (Throw InvalidMediaType)
  /\ parse (str "text/@plain") = Some (Throw InvalidMediaType)
  /\ parse (str "text/plain,wrong") = Some (Throw InvalidMediaType).
Proof. repeat split; vm_compute; reflexivity. Qed.

(** C6, as stated: every input with a semicolon whose parameter list is
    malformed makes [parse] throw the invalid parameter format error.
    It does not when the media type is invalid as well: text/;plain has
    a semicolon at index 5, what follows from there is no parameter
    list, and [parse] throws the invalid media type error, the type
    being checked first. *)
Lemma parse_malformed_parameters_counterexample :
  indexOf (code ";") (js "text/;plain") = Some 5%nat
  /\ ~ parameter_list (drop 5 (js "text/;plain"))
  /\ parse (str "text/;plain") = Some (Throw InvalidMediaType)
  /\ parse (str "text/;plain") <> Some (Throw InvalidParameterFormat).
Proof.
  split; [reflexivity|]. split.
  - change (drop 5 (js "text/;plain")) with (drop 3 (js "x/y;plain")).
    apply not_parameter_list; [reflexivity|apply test_TYPE; reflexivity|].
    vm_compute. reflexivity.
  - split; [vm_compute; reflexivity|vm_compute; discriminate].
Qed.

(** C6, amended.  For every input with a semicolon whose media type
    part, the text before the first semicolon once trimmed, is a valid
    type/subtype, [parse] throws the invalid parameter format error
    whenever the text from the first semicolon on is not a parameter
    list, that is a run of matches of [PARAM_REGEXP] one after the
    other, reaching the end of the string: stray characters between
    parameters, a fragment that does not parse, an unterminated quote
    and characters left after the last parameter all do. *)
Theorem parse_rejects_malformed_parameters (header : jsstring) (i : nat) :
  indexOf (code ";") header = Some i ->
  is_media_type (trim (take i header)) ->
  ~ parameter_list (drop i header) ->
  parse (ArgPrim (PString header)) = Some (Throw InvalidParameterFormat).
Proof.
  intros Hi Ht Hl. apply test_TYPE in Ht.
  destruct (indexOf_Some _ _ _ Hi) as (Hlt & _ & _).
  unfold parse. replace (falsy _) with false
    by (destruct header; [simpl in Hlt; lia|reflexivity]).
  destruct (parse_header_cases header i Hi Ht) as [H|(st & _ & H)]; [exact H|].
  contradiction.
Qed.

Lemma parse_rejects_malformed_parameters_witness :
  parse (ArgPrim (PString (js "text/plain; foo=" ++ [DQUOTE] ++ js "bar")))
  = Some (Throw InvalidParameterFormat).
Proof.
  apply (parse_rejects_malformed_parameters
           (js "text/plain; foo=" ++ [DQUOTE] ++ js "bar") 10).
  - reflexivity.
  - apply test_TYPE. reflexivity.
  - apply not_parameter_list; [reflexivity|apply test_TYPE; reflexivity|].
    vm_compute. reflexivity.
Defined.

(** C7 (the code departs from it).  The claim: when a name occurs
    twice or more, [parse] succeeds and binds the name to the value of
    its last occurrence.  [parse_last_write_wins] proves that for every
    name but one.  For the name [__proto__] the assignment on the plain
    object of the constructor reaches the setter inherited from
    [Object.prototype], which ignores strings: on
    text/html; __proto__=a; __proto__=b the call succeeds and the
    parameters have no binding for the name at all. *)
Theorem parse_duplicate_proto_unbound :
  exists m,
    parse (str "text/html; __proto__=a; __proto__=b") = Some (Ok m)
    /\ type m = js "text/html"
    /\ parameters m !! js "__proto__" = None
    /\ parameters m = ∅.
Proof.
  eexists. split; [vm_compute; reflexivity|].
  repeat split; vm_compute; reflexivity.
Qed.

(** C8 (the code departs from it).  The claim: for a valid type, token
    names and representable values, [format] returns the type followed
    by the segments of the parameters in the order of their names.  A
    value with a horizontal tab, a b with the tab in between, is
    representable, the tab being in the quoted-text set; for it [format]
    returns nothing and throws the invalid parameter value error, since
    the class of [TEXT_REGEXP] holds 0x0B where the grammar quoted in
    the source has HTAB. *)
Theorem format_htab_value_throws :
  spec_quoted_text (js "a" ++ [0x09] ++ js "b")
  /\ is_media_type (js "text/html")
  /\ is_token (js "a")
  /\ format (FObject (Some (js "text/html"))
               (Some {[ js "a" := js "a" ++ [0x09] ++ js "b" ]}))
     = Throw InvalidParameterValue.
Proof.
  split.
  { split; [discriminate|].
    unfold spec_quoted_text_char, DQUOTE, BSLASH.
    repeat (constructor; [eval_codes; lia|]). constructor. }
  split; [apply test_TYPE; reflexivity|].
  split; [apply test_TOKEN; reflexivity|].
  vm_compute. reflexivity.
Qed.

(** X21.  For every object with a valid type and parameters whose names
    are valid tokens and whose values [qstring] accepts, [format]
    returns the type followed by one segment, semicolon space name
    equals value, per parameter, the value bare or quoted as [qstring]
    emits it; the segments come in the lexicographic order of the names
    whatever the order in which the parameters were assigned, so that
    any other assignment order of the same parameters gives the same
    output. *)
Theorem format_sorted_parameters (ty : jsstring)
    (entries : list (jsstring * jsstring)) :
  is_media_type ty ->
  NoDup entries.*1 ->
  Forall (fun e => is_token e.1 /\ representable e.2) entries ->
  sort entries.*1 ≡ₚ entries.*1
  /\ StronglySorted str_le (sort entries.*1)
  /\ format (FObject (Some ty) (Some (assign_all entries)))
     = Ok (ty ++ flat_map (segment (assign_all entries)) (sort entries.*1))
  /\ (forall k v, (k, v) ∈ entries ->
        segment (assign_all entries) k = js "; " ++ k ++ js "=" ++ emitted v)
  /\ (forall entries', entries' ≡ₚ entries ->
        format (FObject (Some ty) (Some (assign_all entries')))
        = format (FObject (Some ty) (Some (assign_all entries)))).
Proof.
  intros Hty Hnd Hall.
  split; [apply sort_perm|]. split; [apply sort_sorted|]. split; [|split].
  - rewrite (format_ok ty (assign_all entries) Hty).
    + now rewrite (sort_Permutation _ _ (Object_keys_assign_all entries Hnd)).
    + intros k v Hkv. rewrite assign_all_list_to_map in Hkv.
      apply elem_of_list_to_map_2 in Hkv. rewrite elem_of_reverse in Hkv.
      rewrite Forall_forall in Hall. apply (Hall (k, v) Hkv).
  - intros k v Hkv. apply segment_lookup. now apply assign_all_lookup.
  - intros entries' Hp.
    rewrite (assign_all_Permutation entries entries');
      [reflexivity|assumption|now symmetry].
Qed.

Lemma format_sorted_parameters_witness :
  let entries := [(js "foo", js "x y"); (js "charset", js "utf-8")] in
  sort entries.*1 ≡ₚ entries.*1
  /\ StronglySorted str_le (sort entries.*1)
  /\ format (FObject (Some (js "text/html")) (Some (assign_all entries)))
     = Ok (js "text/html"
           ++ flat_map (segment (assign_all entries)) (sort entries.*1))
  /\ (forall k v, (k, v) ∈ entries ->
        segment (assign_all entries) k = js "; " ++ k ++ js "=" ++ emitted v)
  /\ (forall entries', entries' ≡ₚ entries ->
        format (FObject (Some (js "text/html")) (Some (assign_all entries')))
        = format (FObject (Some (js "text/html")) (Some (assign_all entries)))).
Proof.
  apply (format_sorted_parameters (js "text/html")
           [(js "foo", js "x y"); (js "charset", js "utf-8")]).
  - apply test_TYPE. reflexivity.
  - apply (bool_decide_unpack _). vm_compute. reflexivity.
  - constructor; [|constructor; [|constructor]]; cbn [fst snd].
    + split; [apply test_TOKEN; reflexivity|].
      right. right. apply test_TEXT. reflexivity.
    + split; [apply test_TOKEN; reflexivity|].
      left. apply test_TOKEN. reflexivity.
Defined.

(** C9 (the code departs from it).  The claim: an object with a headers
    mapping that holds content-type: text/html parses to the type
    text/html.  [getcontenttype] reads [headers] only of an instance of
    [IncomingMessage]; the object literal of the test suite is none, so
    [header] stays undefined and the missing header error is thrown. *)
Theorem parse_plain_request_object_header_missing :
  parse (ArgObject
           (plain_object None
              (HeadersMap {[ js "content-type" := PString (js "text/html") ]})))
  = Some (Throw HeaderMissing).
Proof. reflexivity. Qed.

(** More generally no object literal gets through, whatever its
    [headers] and [getHeader]: the response-like object of the test
    suite, whose [getHeader] returns text/html, fails in the same way. *)
Lemma parse_plain_object (g : option (jsstring -> prim)) (h : headers_prop) :
  parse (ArgObject (plain_object g h)) = Some (Throw HeaderMissing).
Proof. reflexivity. Qed.

(** The part of C9 that holds: an object with neither a [getHeader]
    function nor a [headers] object makes [parse] throw the missing
    header error, which is not the error of a missing argument. *)
Lemma parse_object_without_header (o : http_object) :
  getHeader o = None ->
  headers o = HeadersNotObject ->
  parse (ArgObject o) = Some (Throw HeaderMissing)
  /\ HeaderMissing <> ArgumentStringRequired.
Proof.
  intros Hg Hh. split; [|discriminate].
  unfold parse, getcontenttype. cbn [falsy]. rewrite Hg, Hh.
  destruct (instanceof_Response o), (instanceof_Request o); reflexivity.
Qed.

(** An instance of [IncomingMessage] with that header does parse. *)
Lemma parse_request_instance :
  parse (ArgObject
           (HttpObject false true None
              (HeadersMap {[ js "content-type" := PString (js "text/html") ]})))
  = Some (Ok (MkContentType (js "text/html") ∅)).
Proof. vm_compute. reflexivity. Qed.

(** C10.  [parse] of the empty string throws the argument required
    error, the one a missing argument gets, and not the invalid media
    type error. *)
Theorem parse_empty_string_argument_required :
  parse (ArgPrim (PString [])) = Some (Throw ArgumentStringRequired)
  /\ parse (ArgPrim PUndefined) = Some (Throw ArgumentStringRequired)
  /\ ArgumentStringRequired <> InvalidMediaType.
Proof. split; [reflexivity|]. split; [reflexivity|discriminate]. Qed.

End Claims.

(** * Further properties of the module *)

(** ** Normalised results *)

Section Normalised.

Lemma last_value_Some k ps v :
  last_value k ps = Some v ->
  exists p, p ∈ ps /\ toLowerCase (p_name p) = k /\ v = stored_value (p_value p).
Proof.
  induction ps as [|p ps IH]; cbn [last_value]; [discriminate|].
  destruct (last_value k ps) as [v'|] eqn:Hl.
  - intros H. inversion H; subst. destruct (IH eq_refl) as (q & Hq & Hn & Hv).
    exists q. split; [now right|auto].
  - destruct (decide _) as [Hk|]; [|discriminate].
    intros H. inversion H; subst. exists p. split; [now left|auto].
Qed.

Lemma last_value_is_Some k ps :
  is_Some (last_value k ps) <-> exists p, p ∈ ps /\ toLowerCase (p_name p) = k.
Proof.
  split.
  - intros [v Hv]. apply last_value_Some in Hv as (p & Hp & Hn & _). eauto.
  - intros (p & Hp & Hn). induction ps as [|q ps IH]; [inversion Hp|].
    cbn [last_value]. destruct (last_value k ps) as [v|] eqn:Hl; [eauto|].
    apply elem_of_cons in Hp as [->|Hp].
    + rewrite decide_True by assumption. eauto.
    + destruct (IH Hp) as [v Hv]. discriminate.
Qed.

(** What is stored comes from a parameter of the header, under its
    lower-cased name, and never under [__proto__]. *)
Lemma store_Some ps k v :
  store ps !! k = Some v ->
  k <> js "__proto__"
  /\ exists p, p ∈ ps /\ toLowerCase (p_name p) = k
               /\ v = stored_value (p_value p).
Proof.
  intros H. destruct (decide (k = js "__proto__")) as [->|Hk].
  - rewrite store_proto in H. discriminate.
  - split; [assumption|]. rewrite store_lookup in H by assumption.
    now apply last_value_Some.
Qed.

Lemma lower_unit_idem c : lower_unit (lower_unit c) = lower_unit c.
Proof.
  unfold lower_unit.
  destruct ((65 <=? c) && (c <=? 90)) eqn:H; [|now rewrite H].
  replace ((65 <=? c + 32) && (c + 32 <=? 90)) with false by lia. reflexivity.
Qed.

Lemma toLowerCase_idem s : toLowerCase (toLowerCase s) = toLowerCase s.
Proof.
  unfold toLowerCase. rewrite map_map. apply map_ext. apply lower_unit_idem.
Qed.

Lemma lower_unit_tchar c : is_in tchar c -> is_in tchar (lower_unit c).
Proof.
  unfold lower_unit, is_in, in_class, tchar, one, rng. cbn [existsb fst snd].
  eval_codes. destruct ((65 <=? c) && (c <=? 90)) eqn:H; lia.
Qed.

Lemma toLowerCase_token t : is_token t -> is_token (toLowerCase t).
Proof.
  intros [Hne Ht]. split.
  - destruct t; [congruence|discriminate].
  - unfold toLowerCase. apply Forall_map.
    eapply Forall_impl; [exact Ht|]. apply lower_unit_tchar.
Qed.

Lemma toLowerCase_media_type ty : is_media_type ty -> is_media_type (toLowerCase ty).
Proof.
  intros (t1 & t2 & -> & H1 & H2).
  exists (toLowerCase t1), (toLowerCase t2). split.
  - unfold toLowerCase. rewrite map_app. reflexivity.
  - split; now apply toLowerCase_token.
Qed.

End Normalised.

(** ** Accepted headers *)

Section Accepted.

Lemma parse_string_nonempty header :
  header <> [] -> parse (ArgPrim (PString header)) = parse_header header.
Proof. intros H. unfold parse. destruct header; [congruence|reflexivity]. Qed.

Lemma indexOf_take c s i :
  indexOf c s = Some i -> exists rest, s = take i s ++ c :: rest.
Proof.
  intros H. destruct (indexOf_Some _ _ _ H) as (Hlt & Hl & _).
  exists (drop (S i) s). rewrite <- (drop_S s c i Hl). symmetry. apply take_drop.
Qed.

(** Every header [parse_header] accepts is a valid media type, white
    space around it allowed, followed by well-formed parameters, and the
    result is the one computed from them. *)
Lemma parse_header_Ok_inv header m :
  parse_header header = Some (Ok m) ->
  exists ty ps,
    header = ty ++ flat_map render ps
    /\ indexOf (code ";") ty = None
    /\ is_media_type (trim ty)
    /\ Forall well_formed ps
    /\ m = MkContentType (toLowerCase (trim ty)) (store ps).
Proof.
  intros H.
  destruct (indexOf (code ";") header) as [i|] eqn:Hi.
  - destruct (test TYPE_REGEXP (trim (take i header))) eqn:Ht.
    + destruct (parse_header_cases header i Hi Ht) as [He|(st & _ & Hl)];
        [congruence|].
      apply parameter_list_render in Hl as (ps & Hps & Hd).
      destruct (indexOf_Some _ _ _ Hi) as (_ & _ & Hn).
      assert (header = take i header ++ flat_map render ps) as Heq
        by (rewrite <- Hd; symmetry; apply take_drop).
      exists (take i header), ps. repeat split; auto.
      * now apply test_TYPE.
      * rewrite Heq in H at 1.
        rewrite (parse_header_well_formed _ _ Hn Ht Hps) in H. congruence.
    + unfold parse_header in H. destruct (indexOf_Some _ _ _ Hi) as (Hlt & _ & _).
      rewrite Hi, substring_0, Ht in H by lia. discriminate.
  - unfold parse_header in H. rewrite Hi in H.
    destruct (test TYPE_REGEXP (trim header)) eqn:Ht; [|discriminate].
    exists header, []. cbn [flat_map]. rewrite app_nil_r.
    repeat split; auto; [now apply test_TYPE|]. cbn [negb] in H. inversion H. reflexivity.
Qed.

Lemma parse_Ok_header a m :
  parse a = Some (Ok m) -> exists header, parse_header header = Some (Ok m).
Proof.
  unfold parse. destruct (falsy a); [discriminate|].
  destruct a as [[| | | |s]|o]; try discriminate; [eauto|].
  destruct (getcontenttype o); [eauto|discriminate].
Qed.

End Accepted.

(** ** Unescaping *)

Section Unescape.

Lemma match_at_QESC_pair pre x suf :
  in_class qpair_char x = true ->
  match_at QESC_REGEXP (pre ++ BSLASH :: x :: suf) (length pre)
  = Some (MatchResult (length pre) [BSLASH; x] (<[1%nat := [x]]> ∅)).
Proof.
  intros Hx. unfold match_at, QESC_REGEXP, Chr, QPAIR_CHAR.
  rewrite drop_app_length, rmatch_seq, rmatch_class_cons by reflexivity.
  rewrite rmatch_group, rmatch_class_cons by assumption.
  replace (S (S (length pre)) - S (length pre))%nat with 1%nat by lia.
  replace (S (S (length pre)) - length pre)%nat with 2%nat by lia.
  reflexivity.
Qed.

Lemma match_at_QESC_other pre x suf :
  x <> BSLASH ->
  match_at QESC_REGEXP (pre ++ x :: suf) (length pre) = None.
Proof.
  intros Hx. unfold match_at, QESC_REGEXP, Chr.
  rewrite drop_app_length, rmatch_seq, rmatch_class_out; [reflexivity|].
  unfold in_class. cbn [existsb fst snd]. lia.
Qed.

Lemma replace_from_QESC_escape v : forall pre fuel,
  (length (escape v) < fuel)%nat ->
  replace_from fuel QESC_REGEXP [TRef 1] (pre ++ escape v) (length pre) = v.
Proof.
  induction v as [|c v IH]; intros pre fuel Hfuel;
    (destruct fuel as [|fuel]; [simpl in Hfuel; lia|]).
  - cbn [escape flat_map replace_from]. rewrite app_nil_r. unfold exec.
    destruct (decide _); [|lia]. rewrite Nat.sub_diag. cbn [search].
    unfold match_at. rewrite drop_all. reflexivity.
  - change (escape (c :: v))
      with ((if in_class quote_char c then [BSLASH; c] else [c]) ++ escape v)
      in *.
    destruct (in_class quote_char c) eqn:Hc.
    + assert (in_class qpair_char c = true) as Hq.
      { unfold in_class, quote_char, qpair_char, BSLASH, DQUOTE in *.
        cbn [existsb fst snd] in *. lia. }
      cbn [app] in *. cbn [replace_from].
      rewrite (exec_here _ _ _ _ (Nat.lt_le_incl _ _ (lookup_lt_Some _ _ _
                 (list_lookup_middle pre (c :: escape v) BSLASH _ eq_refl)))
                 (match_at_QESC_pair pre c (escape v) Hq)).
      cbn [m_index m_text length Nat.eqb]. unfold m_end. cbn [m_index m_text length].
      rewrite Nat.sub_diag. cbn [take app]. unfold expand. cbn [flat_map m_groups].
      rewrite lookup_insert_eq. cbn [default app].
      replace (length pre + 2)%nat with (length (pre ++ [BSLASH; c]))
        by (rewrite length_app; reflexivity).
      replace (pre ++ BSLASH :: c :: escape v) with ((pre ++ [BSLASH; c]) ++ escape v)
        by (now rewrite <- app_assoc).
      rewrite IH by (simpl in Hfuel; lia). reflexivity.
    + assert (c <> BSLASH) as Hn.
      { intros ->. discriminate Hc. }
      cbn [app] in *. rewrite (replace_from_skip _ _ _ _ _ c).
      * replace (S (length pre)) with (length (pre ++ [c]))
          by (rewrite length_app; simpl; lia).
        replace (pre ++ c :: escape v) with ((pre ++ [c]) ++ escape v)
          by (now rewrite <- app_assoc).
        rewrite IH by (simpl in Hfuel; lia). reflexivity.
      * now apply list_lookup_middle.
      * now apply match_at_QESC_other.
Qed.

(** The replacement of [parse] undoes the quoted-pair transform. *)
Lemma unescape_escape v : replace QESC_REGEXP [TRef 1] (escape v) = v.
Proof. unfold replace. apply (replace_from_QESC_escape v []). lia. Qed.

(** The quoted-pair transform of a text of [TEXT_REGEXP] characters is
    the inside of a quoted string. *)
Lemma escape_quoted_body v :
  Forall (is_in text_char) v -> quoted_body (escape v).
Proof.
  induction 1 as [|c v Hc _ IH]; [constructor|].
  change (escape (c :: v))
    with ((if in_class quote_char c then [BSLASH; c] else [c]) ++ escape v).
  destruct (in_class quote_char c) eqn:Hq; cbn [app].
  - apply qb_pair; [|assumption].
    unfold is_in, in_class, quote_char, qpair_char, BSLASH, DQUOTE in *.
    cbn [existsb fst snd] in *. lia.
  - apply qb_text; [|assumption].
    unfold is_in, in_class, quote_char, qdtext, text_char, BSLASH, DQUOTE in *.
    cbn [existsb fst snd] in *. lia.
Qed.

(** What [qstring] emits is a token or a quoted string. *)
Lemma emitted_value v :
  representable v -> is_token (emitted v) \/ is_quoted_string (emitted v).
Proof.
  intros Hv. unfold emitted.
  destruct (test TOKEN_REGEXP v) eqn:Ht; [left; now apply test_TOKEN|].
  right. exists (escape v). split; [reflexivity|].
  destruct Hv as [Hv|[->|Hv]].
  - apply test_TOKEN in Hv. congruence.
  - constructor.
  - now apply escape_quoted_body.
Qed.

Lemma qstring_Ok_representable v q : qstring v = Ok q -> representable v.
Proof.
  unfold qstring. destruct (test TOKEN_REGEXP v) eqn:Ht.
  - intros _. left. now apply test_TOKEN.
  - destruct v as [|x v]; [intros _; right; now left|].
    destruct (test TEXT_REGEXP (x :: v)) eqn:Hx; [|discriminate].
    intros _. right. right. now apply test_TEXT.
Qed.

End Unescape.

(** ** Outcomes of format *)

Section FormatOutcome.

Lemma not_token_test k : ~ is_token k -> test TOKEN_REGEXP k = false.
Proof.
  intros H. destruct (test TOKEN_REGEXP k) eqn:Ht; [|reflexivity].
  apply test_TOKEN in Ht. contradiction.
Qed.

Lemma qstring_Throw v e : qstring v = Throw e -> e = InvalidParameterValue.
Proof.
  unfold qstring. destruct (test TOKEN_REGEXP v); [discriminate|].
  destruct (_ && _); congruence.
Qed.

Lemma format_params_Ok_inv P keys : forall s out,
  format_params P keys s = Ok out ->
  Forall (fun k => is_token k /\ representable (get_string P k)) keys.
Proof.
  induction keys as [|k keys IH]; intros s out H; [constructor|].
  cbn [format_params] in H.
  destruct (test TOKEN_REGEXP k) eqn:Hk; [|discriminate].
  cbn [negb] in H.
  destruct (qstring (get_string P k)) as [q|e] eqn:Hq; [|discriminate].
  cbn [bind] in H. constructor; [|eapply IH; eassumption].
  split; [now apply test_TOKEN|eapply qstring_Ok_representable; eassumption].
Qed.

Lemma format_params_Throw P keys : forall s e,
  format_params P keys s = Throw e ->
  e = InvalidParameterName \/ e = InvalidParameterValue.
Proof.
  induction keys as [|k keys IH]; intros s e H; [discriminate|].
  cbn [format_params] in H.
  destruct (test TOKEN_REGEXP k); cbn [negb] in H; [|left; congruence].
  destruct (qstring (get_string P k)) as [q|e'] eqn:Hq; cbn [bind] in H.
  - eapply IH; eassumption.
  - right. rewrite (qstring_Throw _ _ Hq) in H. congruence.
Qed.

Lemma format_params_bad_name P keys : forall s,
  Forall (fun k => representable (get_string P k)) keys ->
  Exists (fun k => ~ is_token k) keys ->
  format_params P keys s = Throw InvalidParameterName.
Proof.
  induction keys as [|k keys IH]; intros s Hv He; [inversion He|].
  inversion Hv as [|? ? Hk Hrest]; subst. cbn [format_params].
  destruct (test TOKEN_REGEXP k) eqn:Ht; [|reflexivity]. cbn [negb].
  rewrite (qstring_representable _ Hk). cbn [bind]. apply IH; [assumption|].
  inversion He as [? ? Hn|]; subst; [|assumption].
  apply test_TOKEN in Ht. contradiction.
Qed.

Lemma format_params_bad_value P keys : forall s,
  Forall is_token keys ->
  Exists (fun k => ~ representable (get_string P k)) keys ->
  format_params P keys s = Throw InvalidParameterValue.
Proof.
  induction keys as [|k keys IH]; intros s Hv He; [inversion He|].
  inversion Hv as [|? ? Hk Hrest]; subst. cbn [format_params].
  apply test_TOKEN in Hk. rewrite Hk. cbn [negb].
  destruct (qstring (get_string P k)) as [q|e] eqn:Hq; cbn [bind].
  - apply IH; [assumption|]. inversion He as [? ? Hn|]; subst; [|assumption].
    apply qstring_Ok_representable in Hq. contradiction.
  - now rewrite (qstring_Throw _ _ Hq).
Qed.

Lemma sorted_keys_elem (P : gmap jsstring jsstring) k :
  k ∈ sort (Object_keys P) <-> is_Some (P !! k).
Proof.
  rewrite sort_perm. unfold Object_keys. rewrite list_elem_of_fmap. split.
  - intros ([k' v] & -> & Hkv). apply elem_of_map_to_list in Hkv. eauto.
  - intros [v Hv]. exists (k, v). split; [reflexivity|].
    now apply elem_of_map_to_list.
Qed.

Lemma format_valid_type ty P :
  is_media_type ty ->
  format (FObject (Some ty) (Some P))
  = format_params P (sort (Object_keys P)) ty.
Proof.
  intros Hty. unfold format.
  pose proof (is_media_type_nonempty ty Hty) as Hlen.
  apply Nat.eqb_neq in Hlen. rewrite Hlen.
  apply test_TYPE in Hty. now rewrite Hty.
Qed.

End FormatOutcome.

(** ** Composition *)

Section Composition.

Lemma segment_written (P : gmap jsstring jsstring) k :
  segment P k = render (written P k).
Proof.
  unfold segment, render, written, spaces.
  cbn [p_sp1 p_name p_sp2 p_sp3 p_value p_sp4 repeat app].
  now rewrite app_nil_r.
Qed.

Lemma flat_map_segment_written (P : gmap jsstring jsstring) keys :
  flat_map (segment P) keys = flat_map render (map (written P) keys).
Proof.
  induction keys as [|k keys IH]; [reflexivity|].
  cbn [flat_map map]. now rewrite IH, segment_written.
Qed.

Lemma written_well_formed (P : gmap jsstring jsstring) k :
  is_token k -> representable (get_string P k) -> well_formed (written P k).
Proof. intros Hk Hv. split; [exact Hk|now apply emitted_value]. Qed.

(** The outcome of [parse_header] turns on the type part alone when
    that part is not a media type. *)
Lemma parse_header_type_part header :
  parse_header header
  = if negb (test TYPE_REGEXP (trim (type_part header)))
    then Some (Throw InvalidMediaType)
    else
      match indexOf (code ";") header with
      | None => Some (Ok (MkContentType (toLowerCase (trim header)) ∅))
      | Some i =>
          match loop (S (length header)) header (LoopState i i ∅) with
          | None => None
          | Some (Throw e) => Some (Throw e)
          | Some (Ok st) =>
              if negb (Nat.eqb (ls_index st) (length header))
              then Some (Throw InvalidParameterFormat)
              else Some (Ok (MkContentType (toLowerCase (trim (take i header)))
                               (ls_parameters st)))
          end
      end.
Proof.
  unfold parse_header, type_part.
  destruct (indexOf (code ";") header) as [i|] eqn:Hi; [|reflexivity].
  destruct (indexOf_Some _ _ _ Hi) as (Hlt & _ & _).
  now rewrite substring_0 by lia.
Qed.

Lemma parse_header_bad_type header :
  test TYPE_REGEXP (trim (type_part header)) = false ->
  parse_header header = Some (Throw InvalidMediaType).
Proof. intros H. rewrite parse_header_type_part, H. reflexivity. Qed.

(** [parse_header] throws nothing but its two grammar errors, and the
    media type error only for a bad type part. *)
Lemma parse_header_Throw header e :
  parse_header header = Some (Throw e) ->
  (e = InvalidMediaType /\ test TYPE_REGEXP (trim (type_part header)) = false)
  \/ (e = InvalidParameterFormat
      /\ test TYPE_REGEXP (trim (type_part header)) = true).
Proof.
  intros H. destruct (test TYPE_REGEXP (trim (type_part header))) eqn:Ht.
  - right. split; [|reflexivity].
    unfold type_part in Ht.
    destruct (indexOf (code ";") header) as [i|] eqn:Hi.
    + destruct (parse_header_cases header i Hi Ht) as [He|(st & He & _)];
        congruence.
    + rewrite parse_header_type_part in H. unfold type_part in H.
      rewrite Hi, Ht in H. discriminate.
  - left. rewrite (parse_header_bad_type _ Ht) in H. split; congruence.
Qed.

(** Two headers with the same parameters and type parts that agree once
    trimmed have the same outcome. *)
Lemma parse_header_trimmed ty ty' rest :
  indexOf (code ";") ty = None ->
  indexOf (code ";") ty' = None ->
  trim ty = trim ty' ->
  param_start rest ->
  parse_header (ty ++ rest) = parse_header (ty' ++ rest).
Proof.
  intros Hty Hty' Htrim Hrest.
  destruct rest as [|x r].
  - rewrite !app_nil_r, !parse_header_type_part. unfold type_part.
    now rewrite Hty, Hty', Htrim.
  - simpl in Hrest. subst x.
    pose proof (indexOf_app_None _ ty r Hty) as Hi.
    pose proof (indexOf_app_None _ ty' r Hty') as Hi'.
    destruct (test TYPE_REGEXP (trim ty)) eqn:Ht.
    + assert (forall t, indexOf (code ";") t = None ->
                test TYPE_REGEXP (trim t) = true ->
                parse_header (t ++ code ";" :: r)
                = Some (Throw InvalidParameterFormat)
                \/ parameter_list (code ";" :: r)) as Hcases.
      { intros t Hn Htt. pose proof (indexOf_app_None _ t r Hn) as Hit.
        destruct (parse_header_cases _ _ Hit) as [He|(st & _ & Hl)].
        - now rewrite take_app_length.
        - now left.
        - right. now rewrite drop_app_length in Hl. }
      assert (forall t ps, indexOf (code ";") t = None ->
                test TYPE_REGEXP (trim t) = true ->
                Forall well_formed ps -> code ";" :: r = flat_map render ps ->
                parse_header (t ++ code ";" :: r)
                = Some (Ok (MkContentType (toLowerCase (trim t)) (store ps))))
        as Hok.
      { intros t ps Hn Htt Hps ->. now apply parse_header_well_formed. }
      assert (test TYPE_REGEXP (trim ty') = true) as Ht' by now rewrite <- Htrim.
      destruct (Hcases ty Hty Ht) as [He|Hl].
      * destruct (Hcases ty' Hty' Ht') as [He'|Hl']; [congruence|].
        apply parameter_list_render in Hl' as (ps & Hps & Hd).
        rewrite (Hok ty ps Hty Ht Hps Hd) in He. discriminate.
      * apply parameter_list_render in Hl as (ps & Hps & Hd).
        rewrite (Hok ty ps Hty Ht Hps Hd), (Hok ty' ps Hty' Ht' Hps Hd).
        now rewrite Htrim.
    + rewrite !parse_header_bad_type; [reflexivity| |]; unfold type_part.
      * now rewrite Hi', take_app_length, <- Htrim.
      * now rewrite Hi, take_app_length.
Qed.

(** What [parse] returns is normalised. *)
Lemma parse_Ok_normalised a m :
  parse a = Some (Ok m) ->
  is_media_type (type m)
  /\ toLowerCase (type m) = type m
  /\ forall k v, parameters m !! k = Some v ->
       is_token k /\ toLowerCase k = k /\ k <> js "__proto__".
Proof.
  intros H. apply parse_Ok_header in H as [header H].
  apply parse_header_Ok_inv in H as (ty & ps & _ & _ & Hty & Hps & ->).
  cbn [type parameters]. split; [now apply toLowerCase_media_type|].
  split; [apply toLowerCase_idem|].
  intros k v Hkv. apply store_Some in Hkv as (Hk & p & Hp & <- & _).
  rewrite Forall_forall in Hps. destruct (Hps p Hp) as [Hn _].
  split; [now apply toLowerCase_token|]. split; [apply toLowerCase_idem|exact Hk].
Qed.

Lemma getcontenttype_Ok o s : getcontenttype o = Ok s <-> exposes_header o s.
Proof.
  unfold getcontenttype, exposes_header.
  destruct o as [res req g h].
  cbn [instanceof_Response instanceof_Request getHeader headers].
  split.
  - intros H.
    destruct res, g as [f|];
      [left; destruct (f (js "content-type")) eqn:Hf; try discriminate H;
       inversion H; subst; eauto|right..];
      (destruct req; [|discriminate H]);
      (destruct h as [| |h]; try discriminate H);
      (destruct (h !! js "content-type") as [[| | | |s']|] eqn:Hh;
       try discriminate H);
      inversion H; subst; eauto 10.
  - intros [(-> & f & -> & Hf)|(Hno & -> & h' & -> & Hh)].
    + now rewrite Hf.
    + destruct Hno as [->| ->]; [|destruct res]; now rewrite Hh.
Qed.

End Composition.

(** ** Characters and case *)

Section Characters.

Lemma class_param_char ranges c :
  Forall (fun r => r.1 = 0x0b /\ r.2 = 0x0b \/ 0x20 <= r.1 /\ r.2 <= 0xff) ranges ->
  is_in ranges c -> param_char c.
Proof.
  unfold is_in, in_class, param_char. induction 1 as [|[lo hi] rs Hr _ IH];
    cbn [existsb fst snd]; [discriminate|].
  cbn [fst snd] in Hr. intros H. apply orb_true_iff in H as [H|H]; [lia|auto].
Qed.

Lemma tchar_param_char c : is_in tchar c -> param_char c.
Proof. intros H. apply tchar_bounds in H. unfold param_char. lia. Qed.

Lemma token_param_chars t : is_token t -> Forall param_char t.
Proof.
  intros [_ H]. eapply Forall_impl; [exact H|]. apply tchar_param_char.
Qed.

Lemma quoted_body_param_chars b : quoted_body b -> Forall param_char b.
Proof.
  induction 1 as [|x w Hx _ IH|x w Hx _ IH].
  - constructor.
  - constructor; [|assumption].
    apply (class_param_char qdtext); [|assumption].
    repeat constructor; cbn; lia.
  - constructor; [unfold param_char, BSLASH; lia|].
    constructor; [|assumption].
    apply (class_param_char qpair_char); [|assumption].
    repeat constructor; cbn; lia.
Qed.

Lemma spaces_param_chars n : Forall param_char (spaces n).
Proof.
  induction n; simpl; constructor; auto. unfold param_char. lia.
Qed.

(** A well-formed parameter holds no control character but, possibly,
    the vertical tab, and no code unit above 0xFF. *)
Lemma render_param_chars p : well_formed p -> Forall param_char (render p).
Proof.
  intros [Hn Hv]. unfold render.
  assert (Forall param_char (p_value p)) as Hval.
  { destruct Hv as [Hv|(b & -> & Hb)]; [now apply token_param_chars|].
    constructor; [unfold param_char, DQUOTE; lia|].
    apply Forall_app. split; [now apply quoted_body_param_chars|].
    constructor; [unfold param_char, DQUOTE; lia|constructor]. }
  constructor; [unfold param_char; eval_codes; lia|].
  repeat (apply Forall_app; split); auto using spaces_param_chars, token_param_chars.
  constructor; [unfold param_char; eval_codes; lia|].
  repeat (apply Forall_app; split); auto using spaces_param_chars.
Qed.

Lemma parameter_list_param_chars rest :
  parameter_list rest -> Forall param_char rest.
Proof.
  intros H. apply parameter_list_render in H as (ps & Hps & ->).
  induction Hps as [|p ps Hp _ IH]; [constructor|].
  cbn [flat_map]. apply Forall_app. split; [now apply render_param_chars|exact IH].
Qed.

End Characters.

Section CaseInsensitive.

Lemma lower_unit_whitespace c : is_whitespace (lower_unit c) = is_whitespace c.
Proof.
  unfold lower_unit. destruct ((65 <=? c) && (c <=? 90)) eqn:H; [|reflexivity].
  unfold is_whitespace. lia.
Qed.

Lemma trimStart_toLowerCase s :
  trimStart (toLowerCase s) = toLowerCase (trimStart s).
Proof.
  induction s as [|x s IH]; [reflexivity|].
  cbn [toLowerCase map trimStart]. rewrite lower_unit_whitespace.
  destruct (is_whitespace x); [exact IH|reflexivity].
Qed.

Lemma toLowerCase_rev s : toLowerCase (rev s) = rev (toLowerCase s).
Proof. unfold toLowerCase. apply map_rev. Qed.

Lemma trim_toLowerCase s : trim (toLowerCase s) = toLowerCase (trim s).
Proof.
  unfold trim, trimEnd.
  now rewrite trimStart_toLowerCase, <- toLowerCase_rev, trimStart_toLowerCase,
    toLowerCase_rev.
Qed.

Lemma indexOf_toLowerCase_semicolon s :
  indexOf (code ";") s = None -> indexOf (code ";") (toLowerCase s) = None.
Proof.
  induction s as [|x s IH]; [reflexivity|]. cbn [toLowerCase map indexOf].
  destruct (Z.eqb_spec x (code ";")) as [|Hx]; [discriminate|].
  destruct (indexOf (code ";") s); [discriminate|]. intros _.
  fold (toLowerCase s). rewrite (IH eq_refl).
  destruct (Z.eqb_spec (lower_unit x) (code ";")) as [He|]; [|reflexivity].
  exfalso. revert He Hx. unfold lower_unit. eval_codes.
  destruct ((65 <=? x) && (x <=? 90)) eqn:H; lia.
Qed.

Lemma lower_name_well_formed p : well_formed p -> well_formed (lower_name p).
Proof.
  intros [Hn Hv]. split; [|exact Hv]. now apply toLowerCase_token.
Qed.

Lemma store_lower_name ps : store (map lower_name ps) = store ps.
Proof.
  unfold store. generalize (∅ : gmap jsstring jsstring) as acc.
  induction ps as [|p ps IH]; intros acc; [reflexivity|].
  cbn [map foldl lower_name p_name p_value]. rewrite toLowerCase_idem. apply IH.
Qed.

End CaseInsensitive.

(** ** What the module guarantees *)

Section Guarantees.

(** X1.  The loop of [parse] terminates: whatever the argument, [parse]
    returns a content type or throws one of its errors, the bound put
    on the turns of the loop being never reached. *)
Theorem parse_terminates (a : parse_arg) : exists r, parse a = Some r.
Proof. apply parse_total. Qed.

(** X2.  The strings [parse] accepts are exactly the texts made of a
    media type, white space allowed around it and no semicolon in it,
    followed by well-formed parameters; the result is then the trimmed
    type lower-cased with the parameters stored in the order of the
    text. *)
Theorem parse_string_accepted_iff (header : jsstring) (m : ContentType) :
  parse (ArgPrim (PString header)) = Some (Ok m)
  <-> exists ty ps,
        header = ty ++ flat_map render ps
        /\ indexOf (code ";") ty = None
        /\ is_media_type (trim ty)
        /\ Forall well_formed ps
        /\ m = MkContentType (toLowerCase (trim ty)) (store ps).
Proof.
  split.
  - intros H. destruct header as [|x header]; [discriminate H|].
    rewrite parse_string_nonempty in H by discriminate.
    now apply parse_header_Ok_inv.
  - intros (ty & ps & -> & Hty & Ht & Hps & ->).
    apply test_TYPE in Ht. now apply parse_well_formed.
Qed.

(** X3.  Whatever [parse] returns is normalised: the type is a media
    type in lower case, and every parameter name is a token in lower
    case, other than [__proto__]. *)
Theorem parse_result_normalised (a : parse_arg) (m : ContentType) :
  parse a = Some (Ok m) ->
  is_media_type (type m)
  /\ toLowerCase (type m) = type m
  /\ forall k v, parameters m !! k = Some v ->
       is_token k /\ toLowerCase k = k /\ k <> js "__proto__".
Proof. apply parse_Ok_normalised. Qed.

Lemma parse_result_normalised_witness :
  let m := MkContentType (js "text/html") {[ js "charset" := js "UTF-8" ]} in
  parse (str "Text/HTML; Charset=UTF-8") = Some (Ok m)
  /\ is_media_type (type m)
  /\ toLowerCase (type m) = type m
  /\ forall k v, parameters m !! k = Some v ->
       is_token k /\ toLowerCase k = k /\ k <> js "__proto__".
Proof.
  assert (parse (str "Text/HTML; Charset=UTF-8")
          = Some (Ok (MkContentType (js "text/html")
                        {[ js "charset" := js "UTF-8" ]}))) as H
    by (vm_compute; reflexivity).
  split; [exact H|]. exact (parse_result_normalised _ _ H).
Defined.

(** X4.  On a valid media type followed by well-formed parameters
    [parse] succeeds, and every name other than [__proto__] is bound to
    what the last parameter of that name, compared in lower case,
    holds; a name that no parameter has is unbound. *)
Theorem parse_binds_last_occurrence (ty : jsstring) (ps : list parameter)
    (k : jsstring) :
  indexOf (code ";") ty = None ->
  is_media_type (trim ty) ->
  Forall well_formed ps ->
  k <> js "__proto__" ->
  exists m,
    parse (ArgPrim (PString (ty ++ flat_map render ps))) = Some (Ok m)
    /\ type m = toLowerCase (trim ty)
    /\ parameters m !! k = last_value k ps.
Proof. apply parse_last_write_wins. Qed.

Lemma parse_binds_last_occurrence_witness :
  let ps := [MkParameter 1 (js "a") 0 0 (js "x") 0;
             MkParameter 1 (js "A") 0 0 (js "Y") 0] in
  js "text/html" ++ flat_map render ps = js "text/html; a=x; A=Y"
  /\ last_value (js "a") ps = Some (js "Y")
  /\ exists m,
       parse (ArgPrim (PString (js "text/html" ++ flat_map render ps)))
       = Some (Ok m)
       /\ type m = toLowerCase (trim (js "text/html"))
       /\ parameters m !! js "a" = last_value (js "a") ps.
Proof.
  cbv zeta. split; [reflexivity|]. split; [reflexivity|].
  apply (parse_binds_last_occurrence (js "text/html")
           [MkParameter 1 (js "a") 0 0 (js "x") 0;
            MkParameter 1 (js "A") 0 0 (js "Y") 0] (js "a")).
  - reflexivity.
  - apply test_TYPE. reflexivity.
  - constructor; [|constructor; [|constructor]];
      (split; [|left]; apply test_TOKEN; reflexivity).
  - discriminate.
Defined.

(** X5.  [parse] undoes [format] on every content type whose type is a
    media type in lower case and whose parameters have lower-case token
    names other than [__proto__] and token values: [format] succeeds and
    [parse] of its output returns the content type itself. *)
Theorem format_parse_round_trip_tokens (m : ContentType) :
  is_media_type (type m) ->
  toLowerCase (type m) = type m ->
  (forall k v, parameters m !! k = Some v ->
     is_token k /\ toLowerCase k = k /\ k <> js "__proto__" /\ is_token v) ->
  exists header,
    format (of_ContentType m) = Ok header
    /\ parse (ArgPrim (PString header)) = Some (Ok m).
Proof. apply roundtrip_token_values. Qed.

Lemma format_parse_round_trip_tokens_witness :
  let m := MkContentType (js "text/html") {[ js "charset" := js "UTF-8" ]} in
  exists header,
    format (of_ContentType m) = Ok header
    /\ parse (ArgPrim (PString header)) = Some (Ok m).
Proof.
  apply (format_parse_round_trip_tokens
           (MkContentType (js "text/html") {[ js "charset" := js "UTF-8" ]})).
  - apply test_TYPE. reflexivity.
  - reflexivity.
  - intros k v H. cbn [parameters] in H.
    apply lookup_singleton_Some in H as [<- <-].
    split; [apply test_TOKEN; reflexivity|]. split; [reflexivity|].
    split; [discriminate|apply test_TOKEN; reflexivity].
Defined.

(** X6.  [parse] accepts whatever [format] returns: for a valid type,
    token names and values that [qstring] accepts, [format] succeeds
    and [parse] of its output succeeds too, with the type in lower case
    and with exactly the lower-cased names bound ([__proto__] apart). *)
Theorem parse_accepts_format_output (ty : jsstring) (P : gmap jsstring jsstring) :
  is_media_type ty ->
  (forall k v, P !! k = Some v -> is_token k /\ representable v) ->
  exists header m,
    format (FObject (Some ty) (Some P)) = Ok header
    /\ parse (ArgPrim (PString header)) = Some (Ok m)
    /\ type m = toLowerCase ty
    /\ forall k, k <> js "__proto__" ->
         (is_Some (parameters m !! k)
          <-> exists k', is_Some (P !! k') /\ toLowerCase k' = k).
Proof.
  intros Hty HP.
  set (keys := sort (Object_keys P)).
  assert (Forall well_formed (map (written P) keys)) as Hwf.
  { apply Forall_forall. intros p Hp.
    apply list_elem_of_fmap in Hp as (k & -> & Hk).
    apply sorted_keys_elem in Hk as [v Hv]. destruct (HP k v Hv) as [Hk Hr].
    apply written_well_formed; [assumption|].
    unfold get_string. now rewrite Hv. }
  exists (ty ++ flat_map render (map (written P) keys)).
  eexists. split; [|split; [|split]].
  - rewrite (format_ok ty P Hty HP). fold keys.
    now rewrite flat_map_segment_written.
  - apply parse_well_formed; [now apply media_type_no_semicolon| |exact Hwf].
    apply test_TYPE. now rewrite trim_media_type.
  - cbn [type]. now rewrite trim_media_type.
  - intros k Hk. cbn [parameters].
    rewrite (store_lookup _ k Hk), last_value_is_Some. split.
    + intros (p & Hp & Hn). apply list_elem_of_fmap in Hp as (k' & -> & Hk').
      exists k'. split; [now apply sorted_keys_elem|exact Hn].
    + intros (k' & Hk' & Hn). exists (written P k'). split; [|exact Hn].
      apply list_elem_of_fmap. exists k'. split; [reflexivity|].
      now apply sorted_keys_elem.
Qed.

Lemma parse_accepts_format_output_witness :
  exists header m,
    format (FObject (Some (js "text/html")) (Some {[ js "Foo" := js "x y" ]}))
    = Ok header
    /\ parse (ArgPrim (PString header)) = Some (Ok m)
    /\ type m = toLowerCase (js "text/html")
    /\ forall k, k <> js "__proto__" ->
         (is_Some (parameters m !! k)
          <-> exists k',
                is_Some (({[ js "Foo" := js "x y" ]} : gmap jsstring jsstring) !! k')
                /\ toLowerCase k' = k).
Proof.
  apply (parse_accepts_format_output (js "text/html") {[ js "Foo" := js "x y" ]}).
  - apply test_TYPE. reflexivity.
  - intros k v H. apply lookup_singleton_Some in H as [<- <-].
    split; [apply test_TOKEN; reflexivity|].
    right. right. apply test_TEXT. reflexivity.
Defined.

(** X7.  What [qstring] returns is the value itself when the value is a
    token, and otherwise a quoted string of the parameter grammar whose
    inside gives the value back under the replacement [parse] applies
    to the backslash pairs. *)
Theorem qstring_output_shape (v q : jsstring) :
  qstring v = Ok q ->
  (is_token v /\ q = v)
  \/ (~ is_token v
      /\ exists body,
           q = DQUOTE :: body ++ [DQUOTE]
           /\ quoted_body body
           /\ replace QESC_REGEXP [TRef 1] body = v).
Proof.
  intros H. pose proof (qstring_Ok_representable v q H) as Hr.
  rewrite (qstring_representable v Hr) in H. inversion H; subst; clear H.
  unfold emitted. destruct (test TOKEN_REGEXP v) eqn:Ht.
  - left. split; [now apply test_TOKEN|reflexivity].
  - right. split.
    + intros Hv. apply test_TOKEN in Hv. congruence.
    + exists (escape v). split; [reflexivity|]. split; [|apply unescape_escape].
      destruct Hr as [Hv|[->|Hv]].
      * apply test_TOKEN in Hv. congruence.
      * constructor.
      * now apply escape_quoted_body.
Qed.

Lemma qstring_output_shape_witness :
  qstring (js "a b") = Ok (dq (js "a b"))
  /\ ((is_token (js "a b") /\ dq (js "a b") = js "a b")
      \/ (~ is_token (js "a b")
          /\ exists body,
               dq (js "a b") = DQUOTE :: body ++ [DQUOTE]
               /\ quoted_body body
               /\ replace QESC_REGEXP [TRef 1] body = js "a b")).
Proof.
  split; [reflexivity|].
  apply (qstring_output_shape (js "a b") (dq (js "a b"))). reflexivity.
Defined.

(** X8.  The replacement [parse] applies to backslash pairs undoes the
    one [qstring] applies to double quotes and backslashes, on every
    string. *)
Theorem unescape_undoes_escape (v : jsstring) :
  replace QESC_REGEXP [TRef 1]
    (replace QUOTE_REGEXP [TLit [BSLASH]; TRef 1] v) = v.
Proof. rewrite replace_QUOTE. apply unescape_escape. Qed.

(** X9.  [format] throws the invalid type error exactly when the type
    is missing or is not a media type, whatever the parameters are: the
    type is checked before them, and no parameter gives that error. *)
Theorem format_invalid_type_iff (ty : option jsstring)
    (params : option (gmap jsstring jsstring)) :
  format (FObject ty params) = Throw InvalidType
  <-> forall t, ty = Some t -> ~ is_media_type t.
Proof.
  split.
  - intros H t -> Ht. destruct params as [P|].
    + rewrite (format_valid_type t P Ht) in H.
      apply format_params_Throw in H as [H|H]; discriminate H.
    + unfold format in H.
      pose proof (is_media_type_nonempty t Ht) as Hlen.
      apply Nat.eqb_neq in Hlen. rewrite Hlen in H.
      apply test_TYPE in Ht. rewrite Ht in H. discriminate H.
  - intros H. destruct ty as [t|]; [|reflexivity].
    unfold format. destruct (test TYPE_REGEXP t) eqn:Ht.
    + apply test_TYPE in Ht. now destruct (H t eq_refl).
    + now rewrite orb_true_r.
Qed.

(** X10.  With a valid type, [format] returns a string if and only if
    every parameter name is a token and every parameter value is one
    [qstring] accepts. *)
Theorem format_succeeds_iff (ty : jsstring) (P : gmap jsstring jsstring) :
  is_media_type ty ->
  (exists out, format (FObject (Some ty) (Some P)) = Ok out)
  <-> (forall k v, P !! k = Some v -> is_token k /\ representable v).
Proof.
  intros Hty. split.
  - intros [out H] k v Hkv. rewrite (format_valid_type ty P Hty) in H.
    apply format_params_Ok_inv in H. rewrite Forall_forall in H.
    destruct (H k) as [Hk Hv]; [apply sorted_keys_elem; eauto|].
    unfold get_string in Hv. rewrite Hkv in Hv. auto.
  - intros HP. eexists. now apply format_ok.
Qed.

Lemma format_succeeds_iff_witness :
  exists out,
    format (FObject (Some (js "text/html")) (Some {[ js "a" := js "x y" ]}))
    = Ok out.
Proof.
  apply (format_succeeds_iff (js "text/html") {[ js "a" := js "x y" ]}).
  - apply test_TYPE. reflexivity.
  - intros k v H. apply lookup_singleton_Some in H as [<- <-].
    split; [apply test_TOKEN; reflexivity|].
    right. right. apply test_TEXT. reflexivity.
Defined.

(** X11.  With a valid type, [format] throws the invalid parameter name
    error when all values are acceptable and some name is not a token,
    and the invalid parameter value error when all names are tokens and
    some value is one [qstring] rejects. *)
Theorem format_error_kinds (ty : jsstring) (P : gmap jsstring jsstring) :
  is_media_type ty ->
  ((forall k v, P !! k = Some v -> representable v) ->
   (exists k, is_Some (P !! k) /\ ~ is_token k) ->
   format (FObject (Some ty) (Some P)) = Throw InvalidParameterName)
  /\ ((forall k, is_Some (P !! k) -> is_token k) ->
      (exists k v, P !! k = Some v /\ ~ representable v) ->
      format (FObject (Some ty) (Some P)) = Throw InvalidParameterValue).
Proof.
  intros Hty. rewrite (format_valid_type ty P Hty). split.
  - intros Hv (k & Hk & Hn). apply format_params_bad_name.
    + apply Forall_forall. intros k' Hk'. apply sorted_keys_elem in Hk' as [v Hkv].
      unfold get_string. rewrite Hkv. now apply (Hv k').
    + apply Exists_exists. exists k. split; [|exact Hn].
      now apply sorted_keys_elem.
  - intros Hk (k & v & Hkv & Hn). apply format_params_bad_value.
    + apply Forall_forall. intros k' Hk'. apply Hk. now apply sorted_keys_elem.
    + apply Exists_exists. exists k. split.
      * apply sorted_keys_elem. eauto.
      * unfold get_string. now rewrite Hkv.
Qed.

Lemma format_error_kinds_witness :
  format (FObject (Some (js "text/html")) (Some {[ js "a b" := js "x" ]}))
  = Throw InvalidParameterName
  /\ format (FObject (Some (js "text/html")) (Some {[ js "a" := [0x0a] ]}))
     = Throw InvalidParameterValue.
Proof.
  split.
  - apply (format_error_kinds (js "text/html") {[ js "a b" := js "x" ]}).
    + apply test_TYPE. reflexivity.
    + intros k v H. apply lookup_singleton_Some in H as [<- <-].
      left. apply test_TOKEN. reflexivity.
    + exists (js "a b"). split; [rewrite lookup_singleton_eq; eauto|].
      intros H. apply test_TOKEN in H. discriminate H.
  - apply (format_error_kinds (js "text/html") {[ js "a" := [0x0a] ]}).
    + apply test_TYPE. reflexivity.
    + intros k [v H]. apply lookup_singleton_Some in H as [<- <-].
      apply test_TOKEN. reflexivity.
    + exists (js "a"), [0x0a]. split; [apply lookup_singleton_eq|].
      intros [H|[H|H]].
      * apply test_TOKEN in H. discriminate H.
      * discriminate H.
      * inversion H as [|? ? Hc _]; subst. discriminate Hc.
Defined.

(** X12.  For an object in which [getcontenttype] finds a string, a
    response whose [getHeader] returns it or else a request whose
    [headers] hold it, [parse] of the object is [parse] of that string
    when the string is not empty; an empty header is not reported as a
    missing argument but as an invalid media type. *)
Theorem parse_object_header (o : http_object) (s : jsstring) :
  exposes_header o s ->
  (s <> [] -> parse (ArgObject o) = parse (ArgPrim (PString s)))
  /\ (s = [] -> parse (ArgObject o) = Some (Throw InvalidMediaType)).
Proof.
  intros H. apply getcontenttype_Ok in H.
  assert (parse (ArgObject o) = parse_header s) as Hp.
  { unfold parse. cbn [falsy]. now rewrite H. }
  split.
  - intros Hs. now rewrite Hp, parse_string_nonempty.
  - intros ->. rewrite Hp. reflexivity.
Qed.

Lemma parse_object_header_witness :
  let o := HttpObject false true None
             (HeadersMap {[ js "content-type" := PString (js "text/html") ]}) in
  parse (ArgObject o) = parse (str "text/html").
Proof.
  cbv zeta.
  apply (parse_object_header
           (HttpObject false true None
              (HeadersMap {[ js "content-type" := PString (js "text/html") ]}))
           (js "text/html")).
  - right. split; [now left|]. split; [reflexivity|].
    eexists. split; [reflexivity|]. apply lookup_singleton_eq.
  - discriminate.
Defined.

(** X13.  [parse] of an object throws the missing header error exactly
    when [getcontenttype] finds no string in it: in particular a
    response whose [getHeader] returns no string is not looked up in
    its [headers]. *)
Theorem parse_object_header_missing_iff (o : http_object) :
  parse (ArgObject o) = Some (Throw HeaderMissing)
  <-> ~ exists s, exposes_header o s.
Proof.
  unfold parse. cbn [falsy]. split.
  - intros H [s Hs]. apply getcontenttype_Ok in Hs. rewrite Hs in H.
    apply parse_header_Throw in H as [[H _]|[H _]]; discriminate H.
  - intros H. destruct (getcontenttype o) as [s|e] eqn:Hg.
    + exfalso. apply H. exists s. now apply getcontenttype_Ok.
    + unfold getcontenttype in Hg.
      destruct (match instanceof_Response o, getHeader o with
                | true, Some f => f (js "content-type")
                | _, _ => _
                end); congruence.
Qed.

(** X14.  [TYPE_REGEXP] accepts exactly the strings made of a token, a
    slash and a token, and [TOKEN_REGEXP] exactly the tokens, a token
    being a non-empty string of tchar characters. *)
Theorem TYPE_and_TOKEN_tests (s : jsstring) :
  (test TYPE_REGEXP s = true <-> is_media_type s)
  /\ (test TOKEN_REGEXP s = true <-> is_token s).
Proof. split; [apply test_TYPE|apply test_TOKEN]. Qed.

(** X15.  At the index where a well-formed parameter starts, followed
    by the end of the string or by a semicolon, [PARAM_REGEXP.exec]
    matches at that index and exactly that parameter, with its name and
    its value, quotes included, as the two captures. *)
Theorem PARAM_REGEXP_exec_parameter (pre : jsstring) (p : parameter)
    (rest : jsstring) :
  well_formed p ->
  param_start rest ->
  exec PARAM_REGEXP (pre ++ render p ++ rest) (length pre)
  = Some (MatchResult (length pre) (render p)
            (<[2%nat := p_value p]> (<[1%nat := p_name p]> ∅))).
Proof. apply exec_PARAM. Qed.

Lemma PARAM_REGEXP_exec_parameter_witness :
  let p := MkParameter 1 (js "a") 0 2 (dq (js "x;y")) 1 in
  exec PARAM_REGEXP (js "text/html" ++ render p ++ js "; b=c") 9
  = Some (MatchResult 9 (render p)
            (<[2%nat := dq (js "x;y")]> (<[1%nat := js "a"]> ∅))).
Proof.
  cbv zeta.
  apply (PARAM_REGEXP_exec_parameter (js "text/html")
           (MkParameter 1 (js "a") 0 2 (dq (js "x;y")) 1) (js "; b=c")).
  - split; [apply test_TOKEN; reflexivity|].
    right. exists (js "x;y"). split; [reflexivity|].
    repeat (apply qb_text; [reflexivity|]). constructor.
  - reflexivity.
Defined.

(** X16.  [parse] sees the text before the first semicolon only through
    its trimmed form: two non-empty headers with the same text from the
    first semicolon on, and with type parts that are equal once
    trimmed, have the same outcome, result or error. *)
Theorem parse_type_part_trimmed (ty ty' rest : jsstring) :
  indexOf (code ";") ty = None ->
  indexOf (code ";") ty' = None ->
  trim ty = trim ty' ->
  param_start rest ->
  ty ++ rest <> [] ->
  ty' ++ rest <> [] ->
  parse (ArgPrim (PString (ty ++ rest)))
  = parse (ArgPrim (PString (ty' ++ rest))).
Proof.
  intros Hty Hty' Htrim Hrest Hne Hne'.
  rewrite !parse_string_nonempty by assumption.
  now apply parse_header_trimmed.
Qed.

Lemma parse_type_part_trimmed_witness :
  parse (ArgPrim (PString (js " text/html  " ++ js "; a=b")))
  = parse (ArgPrim (PString (js "text/html" ++ js "; a=b"))).
Proof.
  apply (parse_type_part_trimmed (js " text/html  ") (js "text/html") (js "; a=b"));
    try reflexivity; discriminate.
Defined.

(** X17.  Normalisation is stable: when [parse] returns a content type
    all of whose parameter values are tokens, [format] of it succeeds
    and [parse] of the formatted header returns the same content
    type. *)
Theorem parse_format_parse_stable (a : parse_arg) (m : ContentType) :
  parse a = Some (Ok m) ->
  (forall k v, parameters m !! k = Some v -> is_token v) ->
  exists header,
    format (of_ContentType m) = Ok header
    /\ parse (ArgPrim (PString header)) = Some (Ok m).
Proof.
  intros H Hv. destruct (parse_Ok_normalised a m H) as (Hty & Hlow & Hk).
  apply roundtrip_token_values; auto.
  intros k v Hkv. destruct (Hk k v Hkv) as (H1 & H2 & H3).
  split; [exact H1|]. split; [exact H2|]. split; [exact H3|].
  now apply (Hv k v).
Qed.

Lemma parse_format_parse_stable_witness :
  let m := MkContentType (js "text/html") {[ js "charset" := js "UTF-8" ]} in
  parse (str "Text/HTML ; Charset=UTF-8") = Some (Ok m)
  /\ exists header,
       format (of_ContentType m) = Ok header
       /\ parse (ArgPrim (PString header)) = Some (Ok m).
Proof.
  assert (parse (str "Text/HTML ; Charset=UTF-8")
          = Some (Ok (MkContentType (js "text/html")
                        {[ js "charset" := js "UTF-8" ]}))) as H
    by (vm_compute; reflexivity).
  split; [exact H|].
  apply (parse_format_parse_stable _ _ H).
  intros k v Hkv. cbn [parameters] in Hkv.
  apply lookup_singleton_Some in Hkv as [_ <-]. apply test_TOKEN. reflexivity.
Defined.

(** X18.  [parse] of a string throws the invalid media type error
    exactly when the string is not empty and the text before its first
    semicolon, all of it when there is none, is not a media type once
    trimmed. *)
Theorem parse_invalid_media_type_iff (header : jsstring) :
  parse (ArgPrim (PString header)) = Some (Throw InvalidMediaType)
  <-> header <> [] /\ ~ is_media_type (trim (type_part header)).
Proof.
  split.
  - intros H. destruct header as [|x header]; [discriminate H|].
    split; [discriminate|]. rewrite parse_string_nonempty in H by discriminate.
    intros Ht. apply test_TYPE in Ht.
    apply parse_header_Throw in H as [[_ H]|[H _]]; congruence.
  - intros [Hne Ht]. rewrite parse_string_nonempty by assumption.
    apply parse_header_bad_type.
    destruct (test TYPE_REGEXP _) eqn:H; [|reflexivity].
    apply test_TYPE in H. contradiction.
Qed.

(** X19.  With a valid media type, [parse] throws the invalid parameter
    format error whenever the text from the first semicolon on holds a
    code unit below 0x20 other than the two tabs 0x09 and 0x0B, a line
    feed or a carriage return for instance, or a code unit above 0xFF,
    inside quotes or not. *)
Theorem parse_rejects_control_characters (header : jsstring) (i : nat) (c : Z) :
  indexOf (code ";") header = Some i ->
  is_media_type (trim (take i header)) ->
  c ∈ drop i header ->
  (c < 0x20 /\ c <> 0x09 /\ c <> 0x0b) \/ 0xff < c ->
  parse (ArgPrim (PString header)) = Some (Throw InvalidParameterFormat).
Proof.
  intros Hi Ht Hc Hbad. apply test_TYPE in Ht.
  destruct (indexOf_Some _ _ _ Hi) as (Hlt & _ & _).
  rewrite parse_string_nonempty by (destruct header; [simpl in Hlt; lia|discriminate]).
  destruct (parse_header_cases header i Hi Ht) as [H|(st & _ & H)]; [exact H|].
  apply parameter_list_param_chars in H. rewrite Forall_forall in H.
  specialize (H c Hc). unfold param_char in H. lia.
Qed.

Lemma parse_rejects_control_characters_witness :
  parse (ArgPrim (PString (js "text/html; a=" ++ dq (js "b" ++ [0x0a] ++ js "c"))))
  = Some (Throw InvalidParameterFormat).
Proof.
  apply (parse_rejects_control_characters
           (js "text/html; a=" ++ dq (js "b" ++ [0x0a] ++ js "c")) 9 0x0a).
  - reflexivity.
  - apply test_TYPE. reflexivity.
  - apply list_elem_of_In. cbn. tauto.
  - left. lia.
Defined.

(** X20.  The type and the parameter names are read without regard to
    case: on a valid media type followed by well-formed parameters,
    [parse] returns the same result when the text before the first
    semicolon and the names are put in lower case. *)
Theorem parse_case_insensitive (ty : jsstring) (ps : list parameter) :
  indexOf (code ";") ty = None ->
  is_media_type (trim ty) ->
  Forall well_formed ps ->
  parse (ArgPrim (PString (toLowerCase ty ++ flat_map render (map lower_name ps))))
  = parse (ArgPrim (PString (ty ++ flat_map render ps))).
Proof.
  intros Hty Ht Hps.
  rewrite (parse_well_formed ty ps Hty) by (try apply test_TYPE; assumption).
  rewrite parse_well_formed.
  - now rewrite trim_toLowerCase, toLowerCase_idem, store_lower_name.
  - now apply indexOf_toLowerCase_semicolon.
  - apply test_TYPE. rewrite trim_toLowerCase. now apply toLowerCase_media_type.
  - apply Forall_forall. intros p Hp.
    apply list_elem_of_fmap in Hp as (q & -> & Hq).
    apply lower_name_well_formed. rewrite Forall_forall in Hps. now apply Hps.
Qed.

Lemma parse_case_insensitive_witness :
  let ps := [MkParameter 1 (js "Charset") 0 0 (js "UTF-8") 0] in
  js "Text/HTML" ++ flat_map render ps = js "Text/HTML; Charset=UTF-8"
  /\ toLowerCase (js "Text/HTML") ++ flat_map render (map lower_name ps)
     = js "text/html; charset=UTF-8"
  /\ parse (ArgPrim (PString
              (toLowerCase (js "Text/HTML") ++ flat_map render (map lower_name ps))))
     = parse (ArgPrim (PString (js "Text/HTML" ++ flat_map render ps))).
Proof.
  cbv zeta. split; [reflexivity|]. split; [reflexivity|].
  apply (parse_case_insensitive (js "Text/HTML")
           [MkParameter 1 (js "Charset") 0 0 (js "UTF-8") 0]).
  - reflexivity.
  - apply test_TYPE. reflexivity.
  - constructor; [|constructor].
    split; [|left]; apply test_TOKEN; reflexivity.
Defined.

End Guarantees.
